(** * midterm: port_scanner.py, theClient.py and theServer.py, embedded and
    verified

    A shallow embedding of the respectful threaded port scanner
    ([port_scanner.py]), of the interactive TCP client ([theClient.py]) and
    of the threaded echo server ([theServer.py]).

    Python values are modelled as follows.
    - [str]: a [string] whose characters are the code points 0..255; every
      builtin below is modelled on that range ([str.isspace], [str.lower],
      [int()] and UTF-8 encoding agree with CPython there).
    - [int]: [Z].  [float]: a finite value (its exact rational value), an
      infinity or NaN; only the conversion of seconds to a timestamp looks at
      it.
    - [set] of ints: [gset Z]; [sorted] is a merge sort of its elements.
    - exceptions: the type [exn]; a computation that may raise returns a sum.
    - the world outside the program (sockets, the order in which
      [as_completed] yields futures, the user's keyboard, the peer) is an
      explicit record
      the functions read their outcomes from. *)

From Stdlib Require Import Ascii String QArith.
From stdpp Require Import base tactics option list sorting gmap strings pretty.

Local Open Scope string_scope.
Local Open Scope list_scope.
Local Open Scope Z_scope.

(** ** Python builtins used by the programs *)
Module Py.

(** Exceptions the programs can meet. *)
Inductive exn :=
| ValueError (detail : string)
| OverflowError
| OSError (errno : Z)
| ConnectionRefusedError
| ConnectionResetError
| BrokenPipeError
| socket_timeout
| socket_gaierror
| EOFError
| KeyboardInterrupt
| SystemExit (code : Z).

(** [isinstance(e, Exception)]: [KeyboardInterrupt] and [SystemExit] derive
    from [BaseException] only. *)
Definition is_Exception (e : exn) : bool :=
  match e with
  | KeyboardInterrupt | SystemExit _ => false
  | _ => true
  end.

Definition code_point (c : ascii) : Z := Z.of_N (N_of_ascii c).

(** [str.isspace] on one character (what [str.strip()] removes). *)
Definition isspace (c : ascii) : bool :=
  let n := code_point c in
  ((9 <=? n) && (n <=? 13)) || ((28 <=? n) && (n <=? 32))
  || (n =? 133) || (n =? 160).

Fixpoint lstrip (s : string) : string :=
  match s with
  | EmptyString => EmptyString
  | String c s' => if isspace c then lstrip s' else s
  end.

Fixpoint rstrip (s : string) : string :=
  match s with
  | EmptyString => EmptyString
  | String c s' =>
      match rstrip s' with
      | EmptyString => if isspace c then EmptyString else String c EmptyString
      | r => String c r
      end
  end.

(** [s.strip()] *)
Definition strip (s : string) : string := rstrip (lstrip s).

(** [s.split(sep)] for a one-character separator: never empty. *)
Fixpoint split (sep : ascii) (s : string) : list string :=
  match s with
  | EmptyString => [EmptyString]
  | String c s' =>
      if Ascii.eqb c sep then EmptyString :: split sep s'
      else match split sep s' with
           | h :: t => String c h :: t
           | [] => [String c EmptyString]
           end
  end.

(** [s.split(sep, 1)]: cut at the first separator, if there is one. *)
Fixpoint split1 (sep : ascii) (s : string) : list string :=
  match s with
  | EmptyString => [EmptyString]
  | String c s' =>
      if Ascii.eqb c sep then [EmptyString; s']
      else match split1 sep s' with
           | h :: t => String c h :: t
           | [] => [String c EmptyString]
           end
  end.

(** [sep in s] for a one-character [sep]. *)
Fixpoint contains (sep : ascii) (s : string) : bool :=
  match s with
  | EmptyString => false
  | String c s' => Ascii.eqb c sep || contains sep s'
  end.

(** [bool(s)]: a string is truthy when it is not empty. *)
Definition truthy (s : string) : bool :=
  match s with EmptyString => false | _ => true end.

(** *** [int(s)]

    CPython first maps the text to ASCII: characters below 127 are kept,
    other spaces become a blank, and anything else (there is no decimal
    digit in 127..255) becomes [?] and ends the text. *)
Fixpoint to_ascii_decimal (s : string) : string :=
  match s with
  | EmptyString => EmptyString
  | String c s' =>
      if code_point c <? 127 then String c (to_ascii_decimal s')
      else if isspace c then String " " (to_ascii_decimal s')
      else String "?" EmptyString
  end.

(** The C-locale [isspace] the integer parser skips around the literal. *)
Definition c_isspace (c : ascii) : bool :=
  let n := code_point c in ((9 <=? n) && (n <=? 13)) || (n =? 32).

Fixpoint skip_spaces (s : string) : string :=
  match s with
  | EmptyString => EmptyString
  | String c s' => if c_isspace c then skip_spaces s' else s
  end.

Definition digit_value (c : ascii) : option Z :=
  let n := code_point c in
  if (48 <=? n) && (n <=? 57) then Some (n - 48) else None.

(** Digits with single underscores between them; yields the value, the
    number of digits and the unread rest. *)
Fixpoint scan_digits (prev_underscore : bool) (ndigits : nat) (acc : Z)
    (s : string) : option (Z * nat * string) :=
  match s with
  | EmptyString =>
      if prev_underscore then None else Some (acc, ndigits, EmptyString)
  | String c s' =>
      if Ascii.eqb c "_" then
        if prev_underscore then None else scan_digits true ndigits acc s'
      else
        match digit_value c with
        | Some d => scan_digits false (S ndigits) (10 * acc + d) s'
        | None => if prev_underscore then None else Some (acc, ndigits, s)
        end
  end.

(** [sys.get_int_max_str_digits()] *)
Definition int_max_str_digits : nat := 4300.

(** [int(s)] in base 10; [None] stands for the [ValueError] it raises. *)
Definition int (s : string) : option Z :=
  let s1 := skip_spaces (to_ascii_decimal s) in
  let '(negative, s2) :=
    match s1 with
    | String "+" r => (false, r)
    | String "-" r => (true, r)
    | _ => (false, s1)
    end in
  match s2 with
  | String "_" _ => None
  | _ =>
      match scan_digits false 0 0 s2 with
      | None => None
      | Some (v, nd, rest) =>
          if (nd =? 0)%nat then None
          else if (int_max_str_digits <? nd)%nat then None
          else match skip_spaces rest with
               | EmptyString => Some (if negative then - v else v)
               | _ => None
               end
      end
  end.

(** [range(a, b)] as a list. *)
Definition range (a b : Z) : list Z := seqZ a (b - a).

(** [sorted(s)] for a set of ints. *)
Definition sorted (s : gset Z) : list Z := merge_sort Z.le (elements s).

(** [c.lower()] on one character. *)
Definition lower_char (c : ascii) : ascii :=
  let n := code_point c in
  if ((65 <=? n) && (n <=? 90))
     || ((192 <=? n) && (n <=? 222) && negb (n =? 215))
  then ascii_of_N (Z.to_N (n + 32)) else c.

Fixpoint lower (s : string) : string :=
  match s with
  | EmptyString => EmptyString
  | String c s' => String (lower_char c) (lower s')
  end.

(** [s.encode()]: UTF-8, two bytes for the code points 128..255. *)
Fixpoint encode (s : string) : list Z :=
  match s with
  | EmptyString => []
  | String c s' =>
      let n := code_point c in
      if n <? 128 then n :: encode s'
      else Z.lor 192 (Z.shiftr n 6) :: Z.lor 128 (Z.land n 63) :: encode s'
  end.

(** *** Raising and performing effects

    A computation that may raise returns [inl e] for the exception [e].
    Effectful code returns its outcome with the events it performed, in
    order; [E] is the program's type of events. *)
Definition result (A : Type) : Type := exn + A.

Definition bind {A B} (m : result A) (k : A -> result B) : result B :=
  match m with
  | inl e => inl e
  | inr x => k x
  end.

Definition io (E A : Type) : Type := result A * list E.

Definition ret {E A} (x : A) : io E A := (inr x, []).
Definition raise {E A} (e : exn) : io E A := (inl e, []).
Definition emit {E} (ev : E) : io E unit := (inr tt, [ev]).
Definition lift {E A} (r : result A) : io E A := (r, []).

Definition io_bind {E A B} (m : io E A) (k : A -> io E B) : io E B :=
  match m with
  | (inl e, t) => (inl e, t)
  | (inr x, t) => let '(r, t') := k x in (r, t ++ t')
  end.

(** [try: m except <catches>: handler] *)
Definition try_except {E A} (m : io E A) (catches : exn -> bool)
    (handler : exn -> io E A) : io E A :=
  match m with
  | (inl e, t) =>
      if catches e then let '(r, t') := handler e in (r, t ++ t')
      else (inl e, t)
  | ok => ok
  end.

(** [sys.exit(code)] *)
Definition sys_exit {E A} (code : Z) : io E A := raise (SystemExit code).

(** The exit status of the interpreter for the outcome of the script: 0
    when it runs to its end, the code of [sys.exit], 1 after a traceback. *)
Definition exit_status (r : result unit) : Z :=
  match r with
  | inr _ => 0
  | inl (SystemExit code) => code
  | inl _ => 1
  end.

(** *** [float] seconds and timestamps

    A [float] is a finite double, given by its exact value, an infinity or
    NaN.  [argparse]'s [type=float] yields any of them. *)
Inductive float :=
| Finite (q : Q)
| Infinity (negative : bool)
| NaN.

Coercion Finite : Q >-> float.

Definition Qlt_bool (x y : Q) : bool := negb (Qle_bool y x).

(** What [time.sleep] and [socket.settimeout] first do with their argument
    (CPython 3.11, [_PyTime_FromSecondsObject], rounding away from zero):
    the seconds become a count of nanoseconds in a signed 64-bit integer,
    through a double.  NaN is refused, and so is a count the integer cannot
    hold; otherwise the callers look at the sign of the count only, which is
    the result here ([true]: negative).  The product in nanoseconds rounds
    to the nearest double, so the limits are 512 below and 1024 beyond
    [2^63]; a product that rounds to [2^63] itself passes the range check
    and wraps to the most negative count. *)
Definition timestamp_is_negative (x : float) : result bool :=
  match x with
  | NaN => inl (ValueError "Invalid value NaN (not a number)")
  | Infinity _ => inl OverflowError
  | Finite q =>
      let ns := (q * inject_Z (10 ^ 9))%Q in
      if Qlt_bool ns (inject_Z (- 2 ^ 63 - 1024)) then inl OverflowError
      else if Qlt_bool q 0 then inr true
      else if Qlt_bool ns (inject_Z (2 ^ 63 - 512)) then inr false
      else if Qle_bool ns (inject_Z (2 ^ 63 + 1024)) then inr true
      else inl OverflowError
  end.

(** Seconds that [time.sleep] and [settimeout] accept: a number whose
    timestamp exists and is not negative. *)
Definition is_duration (x : float) : bool :=
  match timestamp_is_negative x with
  | inr false => true
  | _ => false
  end.

End Py.

Notation "'let*' x := m 'in' k" := (Py.bind m (fun x => k))
  (at level 10, x name, m at level 100, k at level 200, only parsing).
Notation "'let!' x := m 'in' k" := (Py.io_bind m (fun x => k))
  (at level 10, x name, m at level 100, k at level 200, only parsing).
Notation "m ;; k" := (Py.io_bind m (fun _ => k))
  (at level 100, k at level 200, right associativity, only parsing).

(** ** port_scanner.py *)
Module port_scanner.
Import Py.

(** [int(s)], raising [ValueError]; the message of [int()] quotes the
    literal, which is left out here: only the class is used. *)
Definition int_of (s : string) : result Z :=
  match int s with
  | Some n => inr n
  | None => inl (ValueError "invalid literal for int() with base 10")
  end.

(** [[p.strip() for p in port_spec.split(",") if p.strip()]] *)
Definition parts (port_spec : string) : list string :=
  strip <$> filter (fun p => truthy (strip p)) (split "," port_spec).

(** The body of [for part in parts], threading the set [ports]. *)
Fixpoint parse_loop (ps : list string) (ports : gset Z) : result (gset Z) :=
  match ps with
  | [] => inr ports
  | part :: rest =>
      if contains "-" part then
        match split1 "-" part with
        | [a; b] =>
            let* a := int_of a in
            let* b := int_of b in
            if (a <? 1) || (65535 <? b) || (b <? a)
            then inl (ValueError ("Invalid port range: " +:+ part))
            else parse_loop rest (ports ∪ list_to_set (range a (b + 1)))
        | _ => inl (ValueError "unpack")
        end
      else
        let* n := int_of part in
        if (n <? 1) || (65535 <? n)
        then inl (ValueError ("Invalid port number: " +:+ pretty n))
        else parse_loop rest (ports ∪ {[ n ]})
  end.

Definition parse_ports (port_spec : string) : result (list Z) :=
  let* ports := parse_loop (parts port_spec) ∅ in
  inr (sorted ports).

(** *** The world the scanner runs in

    What the operating system answers to the socket calls of the probe of
    [(host, port)], and the order in which [as_completed] yields the
    futures. *)
Inductive socket_error :=
| Refused | TimedOut | Reset | ResolutionFailed | OtherError (errno : Z).

Definition raised (f : socket_error) : exn :=
  match f with
  | Refused => ConnectionRefusedError
  | TimedOut => socket_timeout
  | Reset => ConnectionResetError
  | ResolutionFailed => socket_gaierror
  | OtherError n => OSError n
  end.

Record world := {
  socket_new : string -> Z -> option socket_error;
  connect_ex : string -> Z -> socket_error + Z;
  socket_close : string -> Z -> option socket_error;
  yield_order : list nat
}.

Inductive log_msg :=
| RefusingToScan (h : string)
| BadPortSpecification (e : exn)
| StartingScan (h : string) (nports : nat) (nworkers : Z)
| PortStatus (port : Z) (is_open : bool)
| ScanComplete (open_ports : list Z + string).

Inductive event :=
| Log (m : log_msg)
| Submit (h : string) (port : Z) (tmo : float)
| Sleep (d : float)
| SockOpen (h : string) (port : Z)
| SockSetTimeout (tmo : float)
| SockConnect (h : string) (port : Z)
| SockClose (h : string) (port : Z).

Definition io : Type -> Type := Py.io event.

Definition is_ValueError (e : exn) : bool :=
  match e with ValueError _ => true | _ => false end.

(** [time.sleep(d)]: the length becomes a timestamp, which must not be
    negative. *)
Definition time_sleep (d : float) : io unit :=
  match timestamp_is_negative d with
  | inl e => raise e
  | inr true => raise (ValueError "sleep length must be non-negative")
  | inr false => emit (Sleep d)
  end.

Definition ALLOWED_HOSTS : gset string :=
  {[ "127.0.0.1"; "localhost"; "scanme.nmap.org" ]}.

Definition log (m : log_msg) : io unit := emit (Log m).

(** [with socket.socket(AF_INET, SOCK_STREAM) as s: body]: the socket is
    closed on every way out of [body]. *)
Definition with_socket {A} (w : world) (h : string) (port : Z)
    (body : io A) : io A :=
  match socket_new w h port with
  | Some f => raise (raised f)
  | None =>
      let '(r, t) := body in
      match socket_close w h port with
      | Some f => (inl (raised f), SockOpen h port :: t ++ [SockClose h port])
      | None => (r, SockOpen h port :: t ++ [SockClose h port])
      end
  end.

(** [s.settimeout(t)] for a float: the timeout becomes a timestamp, which
    must not be negative (on a platform with [poll], where no further limit
    applies). *)
Definition settimeout (tmo : float) : io unit :=
  match timestamp_is_negative tmo with
  | inl e => raise e
  | inr true => raise (ValueError "Timeout value out of range")
  | inr false => emit (SockSetTimeout tmo)
  end.

Definition sock_connect_ex (w : world) (h : string) (port : Z) : io Z :=
  emit (SockConnect h port) ;;
  match connect_ex w h port with
  | inl f => raise (raised f)
  | inr errno => ret errno
  end.

Definition scan_port (w : world) (h : string) (port : Z) (tmo : float)
    : io (Z * bool) :=
  try_except
    (with_socket w h port
       (settimeout tmo ;;
        let! res := sock_connect_ex w h port in
        ret (port, res =? 0)))
    is_Exception
    (fun _ => ret (port, false)).

(** *** The thread pool

    A future holds the outcome of its task.  [ex.submit(scan_port, ...)]
    hands the task to the pool; the socket calls of the task happen on a
    worker thread, so they are not events of the main thread (see
    [network_io]). *)
Definition future : Type := result (Z * bool).

Definition submit (w : world) (h : string) (port : Z) (tmo : float) : io future :=
  emit (Submit h port tmo) ;;
  ret (fst (scan_port w h port tmo)).

(** [future.result()] re-raises what the task raised. *)
Definition future_result (f : future) : io (Z * bool) := lift f.

(** [ThreadPoolExecutor(max_workers=n)] rejects [n <= 0]; leaving the
    [with] block waits for the submitted tasks. *)
Definition with_executor {A} (max_workers : Z) (body : io A) : io A :=
  if max_workers <=? 0
  then raise (ValueError "max_workers must be greater than 0")
  else body.

(** [as_completed(fs)] yields every future once.  The order is not tied to
    when the probes finished: futures already finished when it is called
    come first in the arbitrary order of a set, the others as they finish.
    The world decides that order, and any order is possible: [k :: sched]
    picks the pending future at index [k mod (number pending)] next, and with
    no picks left the others come as they stand. *)
Fixpoint as_completed {A} (sched : list nat) (pending : list A) : list A :=
  match sched with
  | [] => pending
  | k :: sched' =>
      match pending with
      | [] => []
      | _ =>
          let i := (k mod length pending)%nat in
          match pending !! i with
          | Some f => f :: as_completed sched' (delete i pending)
          | None => pending
          end
      end
  end.

Record args := {
  host : string;
  ports : string;
  workers : Z;
  timeout : float;
  delay : float
}.

(** [for port in ports: futures[ex.submit(...)] = port; time.sleep(delay)] *)
Fixpoint submit_loop (w : world) (a : args) (port_list : list Z)
    (futures : list (future * Z)) : io (list (future * Z)) :=
  match port_list with
  | [] => ret futures
  | port :: rest =>
      let! f := submit w (host a) port (timeout a) in
      time_sleep (delay a) ;;
      submit_loop w a rest (futures ++ [(f, port)])
  end.

(** [for future in as_completed(futures): ...] *)
Fixpoint report_loop (done : list future) (open_ports : list Z)
    : io (list Z) :=
  match done with
  | [] => ret open_ports
  | f :: rest =>
      let! r := future_result f in
      let '(port, is_open) := r in
      let open_ports := if is_open then open_ports ++ [port] else open_ports in
      log (PortStatus port is_open) ;;
      report_loop rest open_ports
  end.

(** [open_ports if open_ports else 'None'] *)
Definition shown (open_ports : list Z) : list Z + string :=
  match open_ports with
  | [] => inr "None"
  | _ => inl open_ports
  end.

(** Lines 74 to 91 of [main]: the sweep over a parsed port list.  The wall
    clock ([start], [duration]) is not modelled. *)
Definition sweep (w : world) (a : args) (port_list : list Z) : io (list Z) :=
  log (StartingScan (host a) (length port_list) (workers a)) ;;
  let! open_ports :=
    with_executor (workers a)
      (let! futures := submit_loop w a port_list [] in
       report_loop (as_completed (yield_order w) (fst <$> futures)) []) in
  log (ScanComplete (shown open_ports)) ;;
  ret open_ports.

(** [main] from line 63 on, for the [args] that [p.parse_args()] returned.
    [argparse] itself (lines 55 to 61), which ends the script with status 2
    on a command line it refuses, is not modelled. *)
Definition main (w : world) (a : args) : io unit :=
  if negb (bool_decide (host a ∈ ALLOWED_HOSTS)) then
    log (RefusingToScan (host a)) ;;
    sys_exit 1
  else
    let! port_list :=
      try_except (lift (parse_ports (ports a))) is_ValueError
        (fun e => log (BadPortSpecification e) ;; sys_exit 1) in
    sweep w a port_list ;;
    ret tt.

(** The socket calls made on the worker threads during a run: the pool runs
    every task that was submitted, so they are the calls of [scan_port] for
    each [Submit] of the main thread.  The tasks overlap in time; the list
    puts the calls of one task after those of another only to have them in
    one list, so the calls of one task are in order, and which calls occur
    is meant, but no order between tasks. *)
Definition network_io (w : world) (t : list event) : list event :=
  flat_map (fun ev =>
              match ev with
              | Submit h port tmo => snd (scan_port w h port tmo)
              | _ => []
              end) t.

(** The probe results of a run, in the order they were logged. *)
Definition probe_results (t : list event) : list (Z * bool) :=
  omap (fun ev =>
          match ev with
          | Log (PortStatus port is_open) => Some (port, is_open)
          | _ => None
          end) t.

(** The ports handed to the pool, in submission order. *)
Definition submitted (t : list event) : list Z :=
  omap (fun ev => match ev with Submit _ port _ => Some port | _ => None end) t.

(** The main thread's submissions and pauses, in order. *)
Definition is_pacing_event (ev : event) : bool :=
  match ev with
  | Submit _ _ _ | Sleep _ => true
  | _ => false
  end.

Definition pacing (t : list event) : list event := filter is_pacing_event t.

(** The final summary of a run, if it was logged. *)
Definition summary (t : list event) : option (list Z + string) :=
  last (omap (fun ev =>
                match ev with
                | Log (ScanComplete s) => Some s
                | _ => None
                end) t).

(** The probe of [(h, port)] finds the port open in [w]: every socket call
    succeeds, the timeout included, and [connect_ex] answers 0. *)
Definition connects (w : world) (h : string) (port : Z) (tmo : float) : bool :=
  match socket_new w h port, connect_ex w h port, socket_close w h port with
  | None, inr 0, None => is_duration tmo
  | _, _, _ => false
  end.

(** The probe results of a sweep of [port_list], in the order [as_completed]
    yields their futures. *)
Definition completed (w : world) (a : args) (port_list : list Z) : list (Z * bool) :=
  as_completed (yield_order w)
    ((fun port => (port, connects w (host a) port (timeout a))) <$> port_list).

Definition opened (w : world) (a : args) (port_list : list Z) : list Z :=
  (filter (fun r => r.2 = true) (completed w a port_list)).*1.

(** The same invocation with another [--workers]. *)
Definition with_workers (n : Z) (a : args) : args :=
  {| host := host a; ports := ports a; workers := n;
     timeout := timeout a; delay := delay a |}.

End port_scanner.

(** ** theClient.py *)
Module theClient.
Import Py.

(** *** The world the client runs in

    What the user types at each [input()] (after the last entry the input
    is at its end), whether the connection can be made, and what the peer
    does at the [n]-th message sent. *)
Inductive key_event :=
| Line (text : string)      (* [input()] returns [text] *)
| EndOfInput                (* [input()] raises [EOFError] *)
| Interrupt.                (* [input()] raises [KeyboardInterrupt] *)

Record exchange := {
  sendall_raises : option exn;
  recv_gives : result (list Z)
}.

Record world := {
  connection_raises : option exn;
  keyboard : list key_event;
  peer : nat -> exchange
}.

Inductive log_msg :=
| Attempting (server : string * Z)
| Connected (server : string * Z)
| InputInterrupted
| RequestedDisconnect
| ServerClosedBrokenPipe
| ServerClosed
| Received (data : list Z)
| TimedOutWaiting
| ConnectionRefused
| ConnectionTimedOut
| UnexpectedError (e : exn).

Inductive event :=
| Log (m : log_msg)
| Connect (server : string * Z) (tmo : Q)
| SetTimeoutNone
| Input
| SendAll (data : list Z)
| Recv (bufsize : Z)
| Close.

Definition io : Type -> Type := Py.io event.

Definition log (m : log_msg) : io unit := emit (Log m).

(** [input(prompt)] *)
Definition input (k : key_event) : io string :=
  emit Input ;;
  match k with
  | Line text => ret text
  | EndOfInput => raise EOFError
  | Interrupt => raise KeyboardInterrupt
  end.

Definition sendall (x : exchange) (data : list Z) : io unit :=
  emit (SendAll data) ;;
  match sendall_raises x with
  | Some e => raise e
  | None => ret tt
  end.

Definition recv (x : exchange) (bufsize : Z) : io (list Z) :=
  emit (Recv bufsize) ;;
  lift (recv_gives x).

Definition is_EOFError_or_KeyboardInterrupt (e : exn) : bool :=
  match e with EOFError | KeyboardInterrupt => true | _ => false end.
Definition is_BrokenPipeError (e : exn) : bool :=
  match e with BrokenPipeError => true | _ => false end.
Definition is_socket_timeout (e : exn) : bool :=
  match e with socket_timeout => true | _ => false end.

(** [msg.lower() in ("quit", "exit")] *)
Definition is_keyword (msg : string) : bool :=
  String.eqb (lower msg) "quit" || String.eqb (lower msg) "exit".

(** How one turn of [while True] ends. *)
Inductive flow := Break | Continue.

(** One turn of the loop on the next key event, the peer answering with
    [x] if a message is sent. *)
Definition turn (k : key_event) (x : exchange) : io flow :=
  let! typed :=
    try_except
      (let! text := input k in ret (Some (strip text)))
      is_EOFError_or_KeyboardInterrupt
      (fun _ => log InputInterrupted ;; ret None) in
  match typed with
  | None => ret Break
  | Some msg =>
      if negb (truthy msg) then ret Continue
      else if is_keyword msg then log RequestedDisconnect ;; ret Break
      else
        let! sent :=
          try_except
            (sendall x (encode msg) ;; ret true)
            is_BrokenPipeError
            (fun _ => log ServerClosedBrokenPipe ;; ret false) in
        if negb sent then ret Break
        else
          try_except
            (let! data := recv x 4096 in
             match data with
             | [] => log ServerClosed ;; ret Break
             | _ => log (Received data) ;; ret Continue
             end)
            is_socket_timeout
            (fun _ => log TimedOutWaiting ;; ret Continue)
  end.

Definition sends (t : list event) : list (list Z) :=
  omap (fun ev => match ev with SendAll d => Some d | _ => None end) t.

(** [while True: ...] over the key events still to come; [n] counts the
    messages sent so far.  At the end of the recorded keyboard, [input()]
    meets the end of the input. *)
Fixpoint client_loop (w : world) (keys : list key_event) (n : nat) : io unit :=
  match keys with
  | [] => let! _ := turn EndOfInput (peer w n) in ret tt
  | k :: keys' =>
      let '(r, t) := turn k (peer w n) in
      match r with
      | inl e => (inl e, t)
      | inr Break => (inr tt, t)
      | inr Continue =>
          let '(r', t') := client_loop w keys' (n + length (sends t))%nat in
          (r', t ++ t')
      end
  end.

(** [with socket.create_connection(server, timeout) as sock: body].  The
    timeout is only handed on: whether the connection is made with it, or
    what is raised instead, is the world's answer [connection_raises]. *)
Definition with_connection {A} (w : world) (server : string * Z) (tmo : Q)
    (body : io A) : io A :=
  emit (Connect server tmo) ;;
  match connection_raises w with
  | Some e => raise e
  | None => let '(r, t) := body in (r, t ++ [Close])
  end.

Definition interactive_client (w : world) (server : string * Z) (tmo : Q)
    : io unit :=
  try_except
    (log (Attempting server) ;;
     with_connection w server tmo
       (log (Connected server) ;;
        emit SetTimeoutNone ;;
        client_loop w (keyboard w) 0))
    is_Exception
    (fun e =>
       match e with
       | ConnectionRefusedError => log ConnectionRefused
       | socket_timeout => log ConnectionTimedOut
       | _ => log (UnexpectedError e)
       end).

(** What a session sends to a peer that answers every message: the stripped
    text of each line in turn, blank lines skipped, up to the first keyword
    or the end of the input. *)
Fixpoint expected_sends (keys : list key_event) : list (list Z) :=
  match keys with
  | Line text :: rest =>
      if negb (truthy (strip text)) then expected_sends rest
      else if is_keyword (strip text) then []
      else encode (strip text) :: expected_sends rest
  | _ => []
  end.

(** The peer takes every message and answers it with some data. *)
Definition answering (w : world) : Prop :=
  forall n, sendall_raises (peer w n) = None /\
            exists b data, recv_gives (peer w n) = inr (b :: data).

End theClient.

(** ** The port specification, in the words of the specification

    A segment containing [-] is a range [a-b] whose bounds are parsed as
    integers; a segment without [-] is a single port, parsed as an integer;
    anything else is not made of integers. *)
Module PortSpec.

Inductive segment :=
| Single (n : Z)
| Range (a b : Z)
| NotIntegers.

Definition read_segment (part : string) : segment :=
  if Py.contains "-" part then
    match Py.split1 "-" part with
    | [a; b] =>
        match Py.int a, Py.int b with
        | Some a, Some b => Range a b
        | _, _ => NotIntegers
        end
    | _ => NotIntegers
    end
  else
    match Py.int part with
    | Some n => Single n
    | None => NotIntegers
    end.

(** A range requires [1 <= a <= b <= 65535], a single port lies in
    [1, 65535]. *)
Definition well_formed (s : segment) : Prop :=
  match s with
  | Single n => 1 <= n <= 65535
  | Range a b => 1 <= a /\ a <= b /\ b <= 65535
  | NotIntegers => False
  end.

(** A range fails if [a < 1], [b > 65535] or [a > b]; a single port fails
    outside [1, 65535]; non-integer tokens fail. *)
Definition malformed (s : segment) : Prop :=
  match s with
  | Single n => n < 1 \/ n > 65535
  | Range a b => a < 1 \/ b > 65535 \/ a > b
  | NotIntegers => True
  end.

(** The ports a segment lists. *)
Definition lists (s : segment) (p : Z) : Prop :=
  match s with
  | Single n => p = n
  | Range a b => a <= p <= b
  | NotIntegers => False
  end.

(** A valid specification: every non-blank segment is well formed. *)
Definition valid (port_spec : string) : Prop :=
  Forall (fun part => well_formed (read_segment part))
    (port_scanner.parts port_spec).

(** The union of the listed single ports and inclusive ranges. *)
Definition union (port_spec : string) (p : Z) : Prop :=
  exists part, part ∈ port_scanner.parts port_spec /\ lists (read_segment part) p.

(** Only blank segments: every comma-separated piece strips to nothing. *)
Definition blank (port_spec : string) : Prop :=
  Forall (fun piece => Py.strip piece = EmptyString) (Py.split "," port_spec).

End PortSpec.

(** ** Concrete runs used as examples *)
Module Scenarios.
Import port_scanner.

(** The command line [--host 127.0.0.1 --ports <spec>] with the defaults. *)
Definition loopback (port_spec : string) : args :=
  {| host := "127.0.0.1"; ports := port_spec; workers := 50;
     timeout := Py.Finite (1 # 2); delay := Py.Finite (5 # 1000) |}.

(** A transport on which every port answers except those in [closed], which
    refuse the connection (errno 111); [as_completed] yields the futures as
    [sched] says. *)
Definition transport (closed : list Z) (sched : list nat) : world :=
  {| socket_new := fun _ _ => None;
     connect_ex := fun _ port => if bool_decide (port ∈ closed) then inr 111 else inr 0;
     socket_close := fun _ _ => None;
     yield_order := sched |}.

(** A transport on which every connection attempt times out. *)
Definition silent : world :=
  {| socket_new := fun _ _ => None;
     connect_ex := fun _ _ => inl TimedOut;
     socket_close := fun _ _ => None;
     yield_order := [] |}.

(** A user typing [keys] to a server that answers every message with
    [OK]. *)
Definition typing (keys : list theClient.key_event) : theClient.world :=
  {| theClient.connection_raises := None;
     theClient.keyboard := keys;
     theClient.peer := fun _ => {| theClient.sendall_raises := None;
                                   theClient.recv_gives := inr [79; 75] |} |}.

End Scenarios.

(** ** What a run of the scanner shows on the network *)
Module Network.
Import port_scanner.

(** The connection attempts among socket calls. *)
Definition connect_attempts (t : list event) : list (string * Z) :=
  omap (fun ev => match ev with SockConnect h port => Some (h, port) | _ => None end) t.

(** Two worlds whose sockets behave alike; [as_completed] may yield the
    futures in different orders. *)
Definition same_transport (w1 w2 : world) : Prop :=
  (forall h port, socket_new w1 h port = socket_new w2 h port)
  /\ (forall h port, connect_ex w1 h port = connect_ex w2 h port)
  /\ (forall h port, socket_close w1 h port = socket_close w2 h port).

End Network.

(** ** What a session of the client shows *)
Module Session.
Import Py theClient.

(** The socket calls among the events of a session. *)
Definition is_socket_call (ev : event) : bool :=
  match ev with
  | SendAll _ | Recv _ | SetTimeoutNone | Close => true
  | _ => false
  end.

(** What the last three [except] clauses of [interactive_client] log for the
    exception [e]. *)
Definition failure_log (e : exn) : log_msg :=
  match e with
  | ConnectionRefusedError => ConnectionRefused
  | socket_timeout => ConnectionTimedOut
  | _ => UnexpectedError e
  end.

(** What is logged after the connection is closed or could not be made: the
    failure, when an exception reached the outer handlers. *)
Definition epilogue (r : result unit) : list event :=
  match r with
  | inl e => if is_Exception e then [Log (failure_log e)] else []
  | inr _ => []
  end.

End Session.

(** ** Text as code points: [bytes.decode], [str.rstrip], [str.encode]

    The echo server decodes what it receives, so its text can hold any code
    point; here a [str] is the list of its code points and [bytes] the list
    of its byte values. *)
Module Codec.
Import Py.

(** The code points of a [str] of the range 0..255. *)
Definition code_points (s : string) : list Z :=
  code_point <$> list_ascii_of_string s.

(** U+FFFD, the replacement character. *)
Definition replacement : Z := 65533.

Definition is_continuation (b : Z) : bool := (128 <=? b) && (b <=? 191).

(** The second byte allowed after the lead [b0] of a three-byte sequence
    (no overlong form, no surrogate). *)
Definition second_of_three (b0 b1 : Z) : bool :=
  if b0 =? 224 then (160 <=? b1) && (b1 <=? 191)
  else if b0 =? 237 then (128 <=? b1) && (b1 <=? 159)
  else is_continuation b1.

(** The second byte allowed after the lead [b0] of a four-byte sequence
    (no overlong form, nothing above U+10FFFF). *)
Definition second_of_four (b0 b1 : Z) : bool :=
  if b0 =? 240 then (144 <=? b1) && (b1 <=? 191)
  else if b0 =? 244 then (128 <=? b1) && (b1 <=? 143)
  else is_continuation b1.

(** [data.decode(errors="replace")]: UTF-8; every invalid start byte, every
    sequence cut short by a byte that cannot continue it, and a sequence cut
    short by the end of the data become one U+FFFD each, and decoding goes
    on at the byte that broke the sequence. *)
Fixpoint decode (data : list Z) : list Z :=
  match data with
  | [] => []
  | b0 :: r0 =>
      if b0 <? 128 then b0 :: decode r0
      else if (b0 <? 194) || (244 <? b0) then replacement :: decode r0
      else if b0 <? 224 then
        match r0 with
        | [] => [replacement]
        | b1 :: r1 =>
            if is_continuation b1
            then (b0 - 192) * 64 + (b1 - 128) :: decode r1
            else replacement :: decode r0
        end
      else if b0 <? 240 then
        match r0 with
        | [] => [replacement]
        | b1 :: r1 =>
            if second_of_three b0 b1 then
              match r1 with
              | [] => [replacement]
              | b2 :: r2 =>
                  if is_continuation b2
                  then (b0 - 224) * 4096 + (b1 - 128) * 64 + (b2 - 128) :: decode r2
                  else replacement :: decode r1
              end
            else replacement :: decode r0
        end
      else
        match r0 with
        | [] => [replacement]
        | b1 :: r1 =>
            if second_of_four b0 b1 then
              match r1 with
              | [] => [replacement]
              | b2 :: r2 =>
                  if is_continuation b2 then
                    match r2 with
                    | [] => [replacement]
                    | b3 :: r3 =>
                        if is_continuation b3
                        then (b0 - 240) * 262144 + (b1 - 128) * 4096
                             + (b2 - 128) * 64 + (b3 - 128) :: decode r3
                        else replacement :: decode r2
                    end
                  else replacement :: decode r1
              end
            else replacement :: decode r0
        end
  end.

(** [str.isspace] on a code point. *)
Definition isspace (c : Z) : bool :=
  ((9 <=? c) && (c <=? 13)) || ((28 <=? c) && (c <=? 32))
  || (c =? 133) || (c =? 160) || (c =? 5760)
  || ((8192 <=? c) && (c <=? 8202)) || (c =? 8232) || (c =? 8233)
  || (c =? 8239) || (c =? 8287) || (c =? 12288).

(** [text.rstrip()] *)
Fixpoint rstrip (text : list Z) : list Z :=
  match text with
  | [] => []
  | c :: text' =>
      match rstrip text' with
      | [] => if isspace c then [] else [c]
      | r => c :: r
      end
  end.

Definition is_surrogate (c : Z) : bool := (55296 <=? c) && (c <=? 57343).

(** The UTF-8 bytes of one code point; a surrogate has none. *)
Definition encode_char (c : Z) : option (list Z) :=
  if c <? 128 then Some [c]
  else if c <? 2048 then Some [192 + c / 64; 128 + c mod 64]
  else if c <? 65536 then
    if is_surrogate c then None
    else Some [224 + c / 4096; 128 + (c / 64) mod 64; 128 + c mod 64]
  else Some [240 + c / 262144; 128 + (c / 4096) mod 64;
             128 + (c / 64) mod 64; 128 + c mod 64].

(** [text.encode()]; a surrogate raises [UnicodeEncodeError], which is a
    [ValueError]. *)
Fixpoint encode (text : list Z) : result (list Z) :=
  match text with
  | [] => inr []
  | c :: text' =>
      match encode_char c with
      | None => inl (ValueError "surrogates not allowed")
      | Some bytes =>
          match encode text' with
          | inl e => inl e
          | inr rest => inr (bytes ++ rest)
          end
      end
  end.

End Codec.

(** ** theServer.py *)
Module theServer.
Import Py.

(** *** The world a handler runs in

    What [conn.recv] returns or raises at each call, in order (after the
    last entry the peer has closed and [recv] returns no data), and what the
    [n]-th [conn.sendall] raises, if anything. *)
Record connection := {
  recvs : list (result (list Z));
  sendall_raises : nat -> option exn
}.

Definition address : Type := string * Z.

Inductive log_msg :=
| ClientConnected (addr : address)
| ResetByPeer (addr : address)
| Disconnected (addr : address)
| ReceivedFrom (addr : address) (text : list Z)
| BrokenPipeSending (addr : address)
| HandlerException (addr : address) (e : exn)
| HandlerFinished (addr : address)
| Listening (h : string) (port : Z)
| ErrorAccepting (e : exn)
| ServerError (e : exn)
| ShuttingDown
| SignalReceived (sig : Z).

Inductive event :=
| Log (m : log_msg)
| ConnSetTimeoutNone
| Recv (bufsize : Z)
| SendAll (data : list Z)
| ConnClose
| SocketNew
| SetReuseAddr
| Bind (h : string) (port : Z)
| Listen (backlog : Z)
| SetTimeout (seconds : Q)
| Accept
| StartThread (addr : address)
| SocketClose.

Definition io : Type -> Type := Py.io event.

Definition log (m : log_msg) : io unit := emit (Log m).

(** [try: m finally: cleanup] *)
Definition try_finally {A} (m : io A) (cleanup : io unit) : io A :=
  let '(r, t) := m in
  match cleanup with
  | (inl e, t') => (inl e, t ++ t')
  | (inr _, t') => (r, t ++ t')
  end.

Definition is_ConnectionResetError (e : exn) : bool :=
  match e with ConnectionResetError => true | _ => false end.
Definition is_BrokenPipeError (e : exn) : bool :=
  match e with BrokenPipeError => true | _ => false end.
Definition is_socket_timeout (e : exn) : bool :=
  match e with socket_timeout => true | _ => false end.
Definition is_KeyboardInterrupt (e : exn) : bool :=
  match e with KeyboardInterrupt => true | _ => false end.

(** [text = data.decode(errors="replace").rstrip()]; decoding with
    replacement raises nothing, so the fallback ["<binary data>"] of the
    source is never taken. *)
Definition text_of (data : list Z) : list Z :=
  Codec.rstrip (Codec.decode data).

(** [f"Server: received '{text}'\n"] *)
Definition reply_text (text : list Z) : list Z :=
  Codec.code_points "Server: received '" ++ text
  ++ Codec.code_points (String "'" (String (ascii_of_nat 10) EmptyString)).

(** [with conn: body]: the connection is closed on every way out. *)
Definition with_conn {A} (body : io A) : io A :=
  let '(r, t) := body in (r, t ++ [ConnClose]).

(** [while True: ...] of [handle_client] over the results of [recv] still to
    come; [n] counts the replies sent so far. *)
Fixpoint handle_loop (c : connection) (addr : address)
    (rs : list (result (list Z))) (n : nat) : io unit :=
  match rs with
  | [] =>
      emit (Recv 2048) ;;
      log (Disconnected addr)
  | r :: rest =>
      emit (Recv 2048) ;;
      match r with
      | inl e =>
          if is_ConnectionResetError e then log (ResetByPeer addr)
          else raise e
      | inr [] => log (Disconnected addr)
      | inr data =>
          let text := text_of data in
          log (ReceivedFrom addr text) ;;
          let! reply := lift (Codec.encode (reply_text text)) in
          emit (SendAll reply) ;;
          match sendall_raises c n with
          | Some e =>
              if is_BrokenPipeError e then log (BrokenPipeSending addr)
              else raise e
          | None => handle_loop c addr rest (S n)
          end
      end
  end.

Definition handle_client (c : connection) (addr : address) : io unit :=
  log (ClientConnected addr) ;;
  try_finally
    (try_except
       (with_conn (emit ConnSetTimeoutNone ;; handle_loop c addr (recvs c) 0))
       is_Exception
       (fun e => log (HandlerException addr e)))
    (log (HandlerFinished addr)).

(** The replies sent on a connection. *)
Definition replies (t : list event) : list (list Z) :=
  omap (fun ev => match ev with SendAll d => Some d | _ => None end) t.


(** *** The world the listener runs in

    What happens to the main thread, in order: a signal handled between two
    turns of the accept loop, or a call of [accept] that ends with an outcome
    after the signals handled while it waited. [accept] returns a connection
    (and starting its thread may fail), or raises (a timeout after one
    second without a client, an interrupt, any other error). *)
Inductive accept_outcome :=
| Accepted (c : connection) (addr : address) (start_raises : option exn)
| AcceptRaises (e : exn).

Inductive step :=
| Signal (sig : Z)
| Accepts (signals : list Z) (o : accept_outcome).

Record listener := {
  bind_raises : option exn;
  listen_raises : option exn;
  close_raises : option exn;
  steps : list step
}.

(** [_signal_handler]: logs the signal and sets [_shutdown]. *)
Definition _signal_handler (sig : Z) : io bool :=
  log (SignalReceived sig) ;;
  ret true.

(** The handlers of the signals that arrive during one call; the result is
    the new value of [_shutdown]. *)
Fixpoint handle_signals (sigs : list Z) (_shutdown : bool) : io bool :=
  match sigs with
  | [] => ret _shutdown
  | sig :: rest =>
      let! flag := _signal_handler sig in
      handle_signals rest flag
  end.

(** [conn, addr = sock.accept()] and the start of the handler thread, as
    far as they get. *)
Definition attempt (o : accept_outcome) : io unit :=
  match o with
  | Accepted c addr None => emit (StartThread addr)
  | Accepted c addr (Some e) => raise e
  | AcceptRaises e => raise e
  end.

(** How far the accept loop got when the recorded steps end. *)
Inductive loop_end := LoopLeft | StillServing.

(** [while not _shutdown: ...] of [serve] over the steps still to come. *)
Fixpoint accept_loop (ss : list step) (_shutdown : bool) : io loop_end :=
  match ss with
  | Signal sig :: rest =>
      let! flag := _signal_handler sig in
      accept_loop rest flag
  | [] => if _shutdown then ret LoopLeft else ret StillServing
  | Accepts sigs o :: rest =>
      if _shutdown then ret LoopLeft
      else
        emit (SetTimeout 1) ;;
        emit Accept ;;
        let! flag := handle_signals sigs _shutdown in
        match attempt o with
        | (inr _, t) =>
            let '(r, t') := accept_loop rest flag in (r, t ++ t')
        | (inl e, t) =>
            if is_socket_timeout e then
              let '(r, t') := accept_loop rest flag in (r, t ++ t')
            else if is_KeyboardInterrupt e then (inr LoopLeft, t)
            else if is_Exception e then
              let '(r, t') := accept_loop rest flag in
              (r, t ++ Log (ErrorAccepting e) :: t')
            else (inl e, t)
        end
  end.

(** [sock.close()] inside [try: ... except Exception: pass]. *)
Definition close_quietly (l : listener) : io unit :=
  emit SocketClose ;;
  match close_raises l with
  | Some e => if is_Exception e then ret tt else raise e
  | None => ret tt
  end.

(** [serve(host, port, backlog)]; the socket is assumed to be created.  While
    the loop is still serving at the end of the recorded steps, the rest of
    [serve] has not run. *)
Definition serve (l : listener) (h : string) (port : Z) (backlog : Z)
    : io loop_end :=
  emit SocketNew ;;
  emit SetReuseAddr ;;
  let body : io loop_end :=
    try_except
      (emit (Bind h port) ;;
       (match bind_raises l with Some e => raise e | None => ret tt end) ;;
       emit (Listen backlog) ;;
       (match listen_raises l with Some e => raise e | None => ret tt end) ;;
       log (Listening h port) ;;
       accept_loop (steps l) false)
      is_Exception
      (fun e => log (ServerError e) ;; ret LoopLeft) in
  match body with
  | (inr StillServing, t) => (inr StillServing, t)
  | _ => try_finally body (log ShuttingDown ;; close_quietly l)
  end.

(** The handler threads started, in order. *)
Definition started (t : list event) : list address :=
  omap (fun ev => match ev with StartThread addr => Some addr | _ => None end) t.

(** The calls of [accept]. *)
Definition accepts (t : list event) : nat :=
  length (omap (fun ev => match ev with Accept => Some tt | _ => None end) t).

End theServer.

(** ** Runs of the server used as examples, and what they are read for *)
Module Serving.
Import Py theServer.

(** A client that sends [chunks] and then closes; every reply goes out. *)
Definition session (chunks : list (list Z)) : connection :=
  {| recvs := inr <$> chunks; sendall_raises := fun _ => None |}.

(** A listener that binds and listens without error and then meets [ss]. *)
Definition listening (ss : list step) : listener :=
  {| bind_raises := None; listen_raises := None; close_raises := None;
     steps := ss |}.

(** The reply line for a text of the range 0..255. *)
Definition reply_line (text : string) : string :=
  "Server: received '" +:+ text
  +:+ String "'" (String (ascii_of_nat 10) EmptyString).

(** A call of [accept] during which no signal arrives and that raises, if at
    all, an [Exception]. *)
Definition undisturbed (s : step) : Prop :=
  match s with
  | Accepts [] (Accepted _ _ None) => True
  | Accepts [] (Accepted _ _ (Some e)) | Accepts [] (AcceptRaises e) =>
      is_Exception e = true
  | _ => False
  end.

(** An event that neither closes the listening socket nor announces it. *)
Definition loop_event (ev : event) : Prop :=
  ev <> SocketClose /\ ev <> Log ShuttingDown.

(** The address whose handler thread a step starts. *)
Definition thread_of (s : step) : option address :=
  match s with
  | Accepts _ (Accepted _ addr None) => Some addr
  | _ => None
  end.

End Serving.

(** * Verification *)

(** ** Builtins on examples *)
Example int_plain : Py.int "8080" = Some 8080.
Proof. reflexivity. Qed.
Example int_spaces_sign : Py.int "  +5 " = Some 5 /\ Py.int "-3" = Some (-3).
Proof. split; reflexivity. Qed.
Example int_underscore : Py.int "1_0" = Some 10 /\ Py.int "1__0" = None
                          /\ Py.int "_1" = None /\ Py.int "1_" = None.
Proof. repeat split; reflexivity. Qed.
Example int_rejects : Py.int "" = None /\ Py.int "abc" = None
                       /\ Py.int "1 2" = None /\ Py.int "+" = None.
Proof. repeat split; reflexivity. Qed.
Example split_commas : Py.split "," "a,,b" = ["a"; ""; "b"] /\ Py.split "," "" = [""].
Proof. split; reflexivity. Qed.
Example split1_dash : Py.split1 "-" "5--3" = ["5"; "-3"] /\ Py.split1 "-" "-5" = [""; "5"].
Proof. split; reflexivity. Qed.
Example strip_both : Py.strip "  a b " = "a b" /\ Py.strip "   " = "".
Proof. split; reflexivity. Qed.
Example lower_upper : Py.lower "QuIt" = "quit".
Proof. reflexivity. Qed.

(** ** [parse_ports] *)
Section ParsePorts.
Import Py port_scanner PortSpec.

Example parse_ports_blanks : parse_ports " 22 , ,443," = inr [22; 443].
Proof. vm_compute. reflexivity. Qed.
Example parse_ports_signed_bound : parse_ports "1-+3" = inr [1; 2; 3].
Proof. vm_compute. reflexivity. Qed.
Example parse_ports_bad_number :
  parse_ports "70000" = inl (ValueError "Invalid port number: 70000").
Proof. vm_compute. reflexivity. Qed.

Lemma segment_cases (s : segment) : well_formed s \/ malformed s.
Proof. destruct s; simpl; lia. Qed.

Lemma segment_exclusive (s : segment) : well_formed s -> malformed s -> False.
Proof. destruct s; simpl; lia. Qed.

Lemma elem_of_range (a b p : Z) : p ∈ range a (b + 1) <-> a <= p <= b.
Proof. unfold range. rewrite elem_of_seqZ. lia. Qed.

(** One iteration of the loop, read against the segment it handles. *)
Lemma parse_loop_step (part : string) (rest : list string) (acc : gset Z) :
  (well_formed (read_segment part) /\
   exists s : gset Z,
     parse_loop (part :: rest) acc = parse_loop rest (acc ∪ s) /\
     forall p, p ∈ s <-> lists (read_segment part) p)
  \/
  (malformed (read_segment part) /\
   exists d, parse_loop (part :: rest) acc = inl (ValueError d)).
Proof.
  unfold read_segment. simpl. unfold int_of.
  destruct (contains "-" part).
  - destruct (split1 "-" part) as [|a [|b [|c l]]]; simpl; eauto.
    destruct (int a) as [x|]; simpl; eauto.
    destruct (int b) as [y|]; simpl; eauto.
    destruct (x <? 1) eqn:Hx; simpl; [right; split; [lia | eauto] |].
    destruct (65535 <? y) eqn:Hy; simpl; [right; split; [lia | eauto] |].
    destruct (y <? x) eqn:Hxy; simpl; [right; split; [lia | eauto] |].
    left. split; [lia |].
    exists (list_to_set (range x (y + 1))). split; [done |].
    intros p. rewrite elem_of_list_to_set. apply elem_of_range.
  - destruct (int part) as [n|]; simpl; eauto.
    destruct (n <? 1) eqn:Hn; simpl; [right; split; [lia | eauto] |].
    destruct (65535 <? n) eqn:Hm; simpl; [right; split; [lia | eauto] |].
    left. split; [lia |].
    exists {[ n ]}. split; [done |].
    intros p. by rewrite elem_of_singleton.
Qed.

Lemma parse_loop_valid (ps : list string) (acc : gset Z) :
  Forall (fun part => well_formed (read_segment part)) ps ->
  exists s : gset Z,
    parse_loop ps acc = inr s /\
    forall p, p ∈ s <->
              p ∈ acc \/ exists part, part ∈ ps /\ lists (read_segment part) p.
Proof.
  intros Hall. revert acc.
  induction Hall as [|part rest Hwf _ IH]; intros acc.
  - exists acc. split; [done |]. intros p. split; [auto |].
    intros [?|(part & Hin & _)]; [done | by apply elem_of_nil in Hin].
  - destruct (parse_loop_step part rest acc) as [(_ & s & Heq & Hs)|(Hbad & _)];
      [| destruct (segment_exclusive _ Hwf Hbad)].
    destruct (IH (acc ∪ s)) as (s' & Hs' & Hmem).
    exists s'. split; [by rewrite Heq |].
    intros p. rewrite Hmem, elem_of_union, Hs. split.
    + intros [[?|?]|(q & Hq & ?)]; [by left | right; exists part | right; exists q].
      * split; [apply elem_of_cons; by left | done].
      * split; [apply elem_of_cons; by right | done].
    + intros [?|(q & Hq & Hl)]; [by left; left |].
      apply elem_of_cons in Hq as [->|Hq]; [by left; right | right; eauto].
Qed.

Lemma parse_loop_invalid (ps : list string) (acc : gset Z) :
  Exists (fun part => malformed (read_segment part)) ps ->
  exists d, parse_loop ps acc = inl (ValueError d).
Proof.
  revert acc. induction ps as [|part rest IH]; intros acc Hex.
  - by apply Exists_nil in Hex.
  - destruct (parse_loop_step part rest acc) as [(Hwf & s & Heq & _)|(_ & Hd)];
      [| done].
    rewrite Heq. apply IH.
    apply Exists_cons in Hex as [Hbad|?]; [| done].
    destruct (segment_exclusive _ Hwf Hbad).
Qed.

Lemma valid_or_invalid (ps : list string) :
  Forall (fun part => well_formed (read_segment part)) ps \/
  Exists (fun part => malformed (read_segment part)) ps.
Proof.
  induction ps as [|part rest [IH|IH]].
  - left. constructor.
  - destruct (segment_cases (read_segment part)).
    + left. by constructor.
    + right. by apply Exists_cons_hd.
  - right. by apply Exists_cons_tl.
Qed.

(** [sorted] lists a set in strictly ascending order. *)
Lemma strictly_ascending (l : list Z) :
  StronglySorted Z.le l -> NoDup l -> StronglySorted Z.lt l.
Proof.
  induction 1 as [|x l Hl IH Hx]; intros Hnd; [constructor |].
  apply NoDup_cons in Hnd as [Hnotin Hnd].
  constructor; [by apply IH |].
  rewrite Forall_forall in Hx |- *. intros y Hy.
  specialize (Hx y Hy). assert (x <> y) by (intros ->; done). lia.
Qed.

Lemma elem_of_sorted (s : gset Z) (p : Z) : p ∈ sorted s <-> p ∈ s.
Proof. unfold sorted. by rewrite merge_sort_Permutation, elem_of_elements. Qed.

Lemma NoDup_sorted (s : gset Z) : NoDup (sorted s).
Proof. unfold sorted. rewrite merge_sort_Permutation. apply NoDup_elements. Qed.

Lemma sorted_ascending (s : gset Z) : StronglySorted Z.lt (sorted s).
Proof.
  apply strictly_ascending; [| apply NoDup_sorted].
  unfold sorted. apply (StronglySorted_merge_sort Z.le).
Qed.

Lemma parse_ports_valid (port_spec : string) :
  valid port_spec ->
  exists ps, parse_ports port_spec = inr ps /\ forall p, p ∈ ps <-> union port_spec p.
Proof.
  intros Hv. destruct (parse_loop_valid _ ∅ Hv) as (s & Hs & Hmem).
  exists (sorted s). unfold parse_ports. rewrite Hs. split; [done |].
  intros p. rewrite elem_of_sorted, Hmem. unfold union. split; [| by right].
  intros [Hp|Hp]; [by apply not_elem_of_empty in Hp | done].
Qed.

Lemma parse_ports_inr (port_spec : string) (ps : list Z) :
  parse_ports port_spec = inr ps ->
  StronglySorted Z.lt ps /\ NoDup ps.
Proof.
  unfold parse_ports. destruct (parse_loop _ _) as [e|s]; simpl; [done |].
  intros [= <-]. split; [apply sorted_ascending | apply NoDup_sorted].
Qed.

Lemma union_in_range (port_spec : string) (p : Z) :
  valid port_spec -> union port_spec p -> 1 <= p <= 65535.
Proof.
  intros Hv (part & Hin & Hl). unfold valid in Hv.
  rewrite Forall_forall in Hv. specialize (Hv part Hin).
  destruct (read_segment part); simpl in *; lia.
Qed.

(** C2: on every valid port specification [parse_ports] returns a list that
    is strictly ascending, free of duplicates, within [1, 65535], and whose
    elements are exactly the union of the listed ports and inclusive ranges;
    ["80,75-85,82"] gives 75..85. *)
Theorem parse_ports_is_sorted_union :
  (forall port_spec, valid port_spec ->
     exists ps, parse_ports port_spec = inr ps /\
       StronglySorted Z.lt ps /\ NoDup ps /\
       Forall (fun p => 1 <= p <= 65535) ps /\
       forall p, p ∈ ps <-> union port_spec p)
  /\ parse_ports "80,75-85,82" = inr [75; 76; 77; 78; 79; 80; 81; 82; 83; 84; 85].
Proof.
  split; [| vm_compute; reflexivity].
  intros port_spec Hv.
  destruct (parse_ports_valid _ Hv) as (ps & Hps & Hmem).
  destruct (parse_ports_inr _ _ Hps) as [Hsorted Hnd].
  exists ps. repeat split; try done; try (by apply Hmem).
  apply Forall_forall. intros p Hp.
  apply (union_in_range port_spec); [done | by apply Hmem].
Qed.

Lemma parse_ports_is_sorted_union_witness :
  valid "443, 20-22" /\
  exists ps, parse_ports "443, 20-22" = inr ps /\
    StronglySorted Z.lt ps /\ NoDup ps /\
    Forall (fun p => 1 <= p <= 65535) ps /\
    forall p, p ∈ ps <-> union "443, 20-22" p.
Proof.
  assert (Hv : valid "443, 20-22").
  { unfold valid. vm_compute parts. repeat constructor; vm_compute; congruence. }
  split; [exact Hv |].
  exact (proj1 parse_ports_is_sorted_union "443, 20-22" Hv).
Defined.

(** C3: [parse_ports] raises exactly when some non-blank segment is
    malformed (a range with [a < 1], [b > 65535] or [a > b], a single port
    outside [1, 65535], or a token that is not an integer), what it raises is
    always a [ValueError], and ["0-10"], ["70000"], ["10-5"] and ["abc"]
    fail. *)
Theorem parse_ports_fails_exactly_on_malformed :
  (forall port_spec,
     ((exists e, parse_ports port_spec = inl e) <->
      Exists (fun part => malformed (read_segment part)) (parts port_spec))
     /\ (forall e, parse_ports port_spec = inl e -> exists d, e = ValueError d))
  /\ Forall (fun s => exists d, parse_ports s = inl (ValueError d))
       ["0-10"; "70000"; "10-5"; "abc"].
Proof.
  split.
  - intros port_spec.
    assert (Hfail : Exists (fun part => malformed (read_segment part))
                      (parts port_spec) ->
                    exists d, parse_ports port_spec = inl (ValueError d)).
    { intros Hex. destruct (parse_loop_invalid _ ∅ Hex) as (d & Hd).
      exists d. unfold parse_ports. by rewrite Hd. }
    assert (Hbad : forall e, parse_ports port_spec = inl e ->
                   Exists (fun part => malformed (read_segment part))
                     (parts port_spec)).
    { intros e He. destruct (valid_or_invalid (parts port_spec)) as [Hv|?]; [| done].
      destruct (parse_ports_valid _ Hv) as (ps & Hps & _). congruence. }
    split; [split |].
    + intros (e & He). eauto.
    + intros Hex. destruct (Hfail Hex) as (d & Hd). eauto.
    + intros e He. destruct (Hfail (Hbad e He)) as (d & Hd).
      exists d. congruence.
  - repeat constructor; eexists; vm_compute; reflexivity.
Qed.

Lemma parse_ports_fails_exactly_on_malformed_witness :
  Exists (fun part => malformed (read_segment part)) (parts "22,10-5") /\
  exists e, parse_ports "22,10-5" = inl e.
Proof.
  assert (Hex : Exists (fun part => malformed (read_segment part)) (parts "22,10-5")).
  { vm_compute parts. apply Exists_cons_tl, Exists_cons_hd.
    vm_compute. right. right. reflexivity. }
  split; [exact Hex |].
  exact (proj2 (proj1 (proj1 parse_ports_fails_exactly_on_malformed "22,10-5")) Hex).
Defined.

End ParsePorts.

(** ** [scan_port] and the sweep of [main] *)
Section Scanner.
Import Py port_scanner PortSpec.

Lemma raised_is_Exception (f : socket_error) : is_Exception (raised f) = true.
Proof. by destruct f. Qed.

(** What the conversion to a timestamp raises is a [ValueError] or an
    [OverflowError]. *)
Lemma timestamp_raises (x : float) (e : exn) :
  timestamp_is_negative x = inl e ->
  is_Exception e = true /\ exit_status (inl e) = 1.
Proof.
  destruct x as [q| |]; cbn.
  - repeat (destruct (Qlt_bool _ _) || destruct (Qle_bool _ _)); by intros [= <-].
  - by intros [= <-].
  - by intros [= <-].
Qed.

Lemma time_sleep_accepts (d : float) :
  is_duration d = true -> time_sleep d = emit (Sleep d).
Proof.
  unfold is_duration, time_sleep.
  by destruct (timestamp_is_negative d) as [e|[|]].
Qed.

Lemma time_sleep_rejects (d : float) :
  is_duration d = false ->
  exists e, time_sleep d = raise e
            /\ is_Exception e = true /\ exit_status (inl e) = 1
            /\ (timestamp_is_negative d = inr true ->
                e = ValueError "sleep length must be non-negative").
Proof.
  unfold is_duration, time_sleep.
  destruct (timestamp_is_negative d) as [e|[|]] eqn:Hd; [| | done]; intros _.
  - exists e. destruct (timestamp_raises d e Hd). by repeat split.
  - eexists. by repeat split.
Qed.

Lemma settimeout_accepts (tmo : float) :
  is_duration tmo = true -> settimeout tmo = emit (SockSetTimeout tmo).
Proof.
  unfold is_duration, settimeout.
  by destruct (timestamp_is_negative tmo) as [e|[|]].
Qed.

Lemma settimeout_rejects (tmo : float) :
  is_duration tmo = false ->
  exists e, settimeout tmo = raise e /\ is_Exception e = true.
Proof.
  unfold is_duration, settimeout.
  destruct (timestamp_is_negative tmo) as [e|[|]] eqn:Hd; [| | done]; intros _.
  - exists e. by destruct (timestamp_raises tmo e Hd).
  - by eexists.
Qed.

Lemma scan_port_outcome (w : world) (h : string) (port : Z) (tmo : float) :
  fst (scan_port w h port tmo) = inr (port, connects w h port tmo).
Proof.
  unfold scan_port, connects, with_socket, sock_connect_ex.
  destruct (socket_new w h port) as [f|]; simpl;
    [by rewrite raised_is_Exception |].
  destruct (is_duration tmo) eqn:Ht.
  - rewrite (settimeout_accepts tmo Ht). simpl.
    destruct (connect_ex w h port) as [f|errno]; simpl;
      destruct (socket_close w h port) as [g|]; simpl;
      rewrite ?raised_is_Exception; simpl; try done; by destruct errno.
  - destruct (settimeout_rejects tmo Ht) as (e & -> & He). simpl.
    destruct (connect_ex w h port) as [f|[| |]];
      destruct (socket_close w h port) as [g|]; simpl;
      rewrite ?raised_is_Exception, ?He; simpl; done.
Qed.

(** Every pending future is yielded once, whatever the order. *)
Lemma as_completed_Permutation {A} (sched : list nat) (pending : list A) :
  as_completed sched pending ≡ₚ pending.
Proof.
  revert pending. induction sched as [|k sched IH]; intros pending; [done |].
  destruct pending as [|f pending]; [done |]. cbn [as_completed].
  destruct ((f :: pending) !! _) as [g|] eqn:Hg; [| done].
  rewrite IH. symmetry. by apply delete_Permutation.
Qed.

Lemma as_completed_fmap {A B} (g : A -> B) (sched : list nat) (pending : list A) :
  as_completed sched (g <$> pending) = g <$> as_completed sched pending.
Proof.
  revert pending. induction sched as [|k sched IH]; intros pending; [done |].
  destruct pending as [|f pending]; [done |].
  change (g <$> f :: pending) with (g f :: (g <$> pending)).
  cbn [as_completed]. rewrite !length_cons, length_fmap.
  change (g f :: (g <$> pending)) with (g <$> f :: pending).
  rewrite list_lookup_fmap.
  destruct ((f :: pending) !! _) as [x|] eqn:Hx; simpl; [| done].
  change (g f :: list_fmap A B g pending) with (g <$> f :: pending).
  rewrite <- list_fmap_delete, IH. done.
Qed.

(** Conversely every order of the pending futures is one the world can
    choose. *)
Lemma as_completed_any_order {A} (pending done : list A) :
  pending ≡ₚ done -> exists sched, as_completed sched pending = done.
Proof.
  revert pending. induction done as [|f done IH]; intros pending Hp.
  - exists []. by apply Permutation_nil_r in Hp.
  - assert (Hf : f ∈ pending) by (rewrite Hp; apply list_elem_of_here).
    apply list_elem_of_lookup in Hf as [i Hi].
    pose proof (lookup_lt_Some _ _ _ Hi) as Hlt.
    destruct (IH (delete i pending)) as [sched Hs].
    { apply (Permutation_cons_inv (a := f)).
      by rewrite <- (delete_Permutation pending i f). }
    exists (i :: sched). destruct pending as [|g pending]; [done |].
    cbn [as_completed]. rewrite Nat.mod_small by done.
    by rewrite Hi, Hs.
Qed.

(** What the pool is handed for a port list: a submission and a pause per
    port. *)
Lemma submit_loop_run (w : world) (a : args) (port_list : list Z)
    (futures : list (future * Z)) :
  is_duration (delay a) = true ->
  submit_loop w a port_list futures =
    (inr (futures ++
          ((fun port => (inr (port, connects w (host a) port (timeout a)), port))
             <$> port_list)),
     port_list ≫= (fun port => [Submit (host a) port (timeout a); Sleep (delay a)])).
Proof.
  intros Hd. revert futures.
  induction port_list as [|port rest IH]; intros futures; simpl.
  - by rewrite app_nil_r.
  - unfold submit. rewrite (time_sleep_accepts _ Hd), scan_port_outcome. simpl.
    rewrite IH. simpl. by rewrite <- app_assoc.
Qed.

Lemma report_loop_run (rs : list (Z * bool)) (open_ports : list Z) :
  report_loop (inr <$> rs) open_ports =
    (inr (open_ports ++ (filter (fun r => r.2 = true) rs).*1),
     (fun r => Log (PortStatus r.1 r.2)) <$> rs).
Proof.
  revert open_ports. induction rs as [|[port is_open] rs IH]; intros open_ports; simpl.
  - by rewrite app_nil_r.
  - rewrite IH. destruct is_open.
    + rewrite filter_cons_True by done. simpl. by rewrite <- app_assoc.
    + rewrite filter_cons_False by (simpl; congruence). done.
Qed.

Lemma sweep_run (w : world) (a : args) (port_list : list Z) :
  0 < workers a -> is_duration (delay a) = true ->
  sweep w a port_list =
    (inr (opened w a port_list),
     Log (StartingScan (host a) (length port_list) (workers a))
     :: (port_list ≫= (fun port => [Submit (host a) port (timeout a); Sleep (delay a)]))
     ++ ((fun r => Log (PortStatus r.1 r.2)) <$> completed w a port_list)
     ++ [Log (ScanComplete (shown (opened w a port_list)))]).
Proof.
  intros Hw Hd. unfold sweep, with_executor, opened, completed.
  destruct (Z.leb_spec (workers a) 0) as [?|_]; [lia |].
  rewrite submit_loop_run by done. cbn -[as_completed].
  rewrite <- list_fmap_compose.
  replace (fst ∘ _) with
    ((@inr exn (Z * bool)) ∘ (fun port => (port, connects w (host a) port (timeout a))))
    by done.
  rewrite list_fmap_compose, as_completed_fmap, report_loop_run. cbn.
  by rewrite <- app_assoc.
Qed.

Lemma main_run (w : world) (a : args) (port_list : list Z) :
  host a ∈ ALLOWED_HOSTS -> parse_ports (ports a) = inr port_list ->
  0 < workers a -> is_duration (delay a) = true ->
  main w a =
    (inr tt,
     Log (StartingScan (host a) (length port_list) (workers a))
     :: (port_list ≫= (fun port => [Submit (host a) port (timeout a); Sleep (delay a)]))
     ++ ((fun r => Log (PortStatus r.1 r.2)) <$> completed w a port_list)
     ++ [Log (ScanComplete (shown (opened w a port_list)))]).
Proof.
  intros Hh Hp Hw Hd. unfold main.
  rewrite bool_decide_true by done. rewrite Hp. cbn -[sweep].
  rewrite sweep_run by done. cbn. by rewrite app_nil_r.
Qed.

(** *** What the projections of a trace read off a run *)

Lemma pacing_submissions (a : args) (port_list : list Z) :
  pacing (port_list ≫= (fun port => [Submit (host a) port (timeout a); Sleep (delay a)]))
  = port_list ≫= (fun port => [Submit (host a) port (timeout a); Sleep (delay a)]).
Proof.
  unfold pacing. induction port_list as [|port rest IH]; [done |].
  cbn [mbind list_bind app].
  rewrite !filter_cons_True by exact I. by rewrite IH.
Qed.

Lemma pacing_logs {A} (g : A -> log_msg) (l : list A) :
  pacing ((fun x => Log (g x)) <$> l) = [].
Proof.
  unfold pacing. induction l as [|x l IH]; [done |].
  rewrite fmap_cons, filter_cons_False by (intros []). done.
Qed.



Lemma probe_results_submissions (a : args) (port_list : list Z) :
  probe_results
    (port_list ≫= (fun port => [Submit (host a) port (timeout a); Sleep (delay a)]))
  = [].
Proof. unfold probe_results. induction port_list as [|port rest IH]; done. Qed.

Lemma probe_results_logs (rs : list (Z * bool)) :
  probe_results ((fun r => Log (PortStatus r.1 r.2)) <$> rs) = rs.
Proof.
  unfold probe_results. induction rs as [|[port b] rs IH]; [done |].
  rewrite fmap_cons. cbn [omap list_omap fst snd]. by f_equal.
Qed.

Section Run.
Context (w : world) (a : args) (port_list : list Z).
Hypothesis allowed : host a ∈ ALLOWED_HOSTS.
Hypothesis parsed : parse_ports (ports a) = inr port_list.
Hypothesis pool : 0 < workers a.
Hypothesis polite : is_duration (delay a) = true.

Lemma main_outcome : (main w a).1 = inr tt.
Proof. by rewrite (main_run w a port_list). Qed.

Lemma main_pacing :
  pacing (main w a).2 =
  port_list ≫= (fun port => [Submit (host a) port (timeout a); Sleep (delay a)]).
Proof.
  rewrite (main_run w a port_list) by done. cbn [snd]. unfold pacing.
  rewrite filter_cons_False by (intros []). rewrite !filter_app.
  fold (pacing (port_list ≫= (fun port => [Submit (host a) port (timeout a); Sleep (delay a)]))).
  rewrite pacing_submissions.
  fold (pacing ((fun r => Log (PortStatus r.1 r.2)) <$> completed w a port_list)).
  rewrite (pacing_logs (fun r => PortStatus r.1 r.2)).
  rewrite filter_cons_False by (intros []). by rewrite filter_nil, !app_nil_r.
Qed.


Lemma main_probe_results : probe_results (main w a).2 = completed w a port_list.
Proof.
  rewrite (main_run w a port_list) by done. cbn [snd]. unfold probe_results.
  cbn [omap list_omap]. rewrite !omap_app.
  fold (probe_results (port_list ≫= (fun port => [Submit (host a) port (timeout a); Sleep (delay a)]))).
  rewrite probe_results_submissions.
  fold (probe_results ((fun r => Log (PortStatus r.1 r.2)) <$> completed w a port_list)).
  rewrite probe_results_logs. cbn. by rewrite app_nil_r.
Qed.

Lemma main_summary : summary (main w a).2 = Some (shown (opened w a port_list)).
Proof.
  rewrite (main_run w a port_list) by done. cbn [snd]. unfold summary.
  rewrite app_comm_cons, app_assoc, omap_app. cbn [omap list_omap].
  by rewrite last_snoc.
Qed.

End Run.

(** *** The open ports of a sweep *)

Lemma filter_fmap_results (g : Z -> bool) (l : list Z) :
  (filter (fun r : Z * bool => r.2 = true) ((fun p => (p, g p)) <$> l)).*1
  = filter (fun p => g p = true) l.
Proof.
  induction l as [|p l IH]; [done |]. rewrite fmap_cons.
  destruct (g p) eqn:Hg.
  - rewrite !filter_cons_True by (simpl; congruence).
    rewrite fmap_cons. cbn [fst]. by rewrite IH.
  - rewrite !filter_cons_False by (simpl; congruence). done.
Qed.

Lemma StronglySorted_filter_lt (P : Z -> Prop) `{!forall p, Decision (P p)} (l : list Z) :
  StronglySorted Z.lt l -> StronglySorted Z.lt (filter P l).
Proof.
  induction 1 as [|x l Hl IH Hx]; [constructor |].
  rewrite filter_cons. destruct (decide (P x)); [| done].
  constructor; [done |].
  rewrite Forall_forall in Hx |- *. intros y Hy.
  apply list_elem_of_filter in Hy as [_ Hy]. by apply Hx.
Qed.

Lemma opened_Permutation (w : world) (a : args) (port_list : list Z) :
  opened w a port_list ≡ₚ
  filter (fun p => connects w (host a) p (timeout a) = true) port_list.
Proof.
  unfold opened, completed. rewrite as_completed_Permutation.
  by rewrite (filter_fmap_results (fun p => connects w (host a) p (timeout a))).
Qed.

Lemma completed_Permutation (w : world) (a : args) (port_list : list Z) :
  completed w a port_list ≡ₚ
  (fun p => (p, connects w (host a) p (timeout a))) <$> port_list.
Proof. apply as_completed_Permutation. Qed.

(** *** The claims about the scanner *)

(** C4: a host outside the allow-list [{127.0.0.1, localhost,
    scanme.nmap.org}] makes [main] log the refusal and exit with code 1, with
    no task submitted and no socket call made; a host of the list passes the
    guard, and [main] goes on to parse the ports and sweep. *)
Theorem forbidden_target_exits_before_network (w : world) (a : args) :
  (forall h, h ∈ ALLOWED_HOSTS <->
             h = "127.0.0.1" \/ h = "localhost" \/ h = "scanme.nmap.org")
  /\ (host a ∉ ALLOWED_HOSTS ->
        main w a = (inl (SystemExit 1), [Log (RefusingToScan (host a))])
        /\ exit_status (main w a).1 = 1
        /\ submitted (main w a).2 = []
        /\ network_io w (main w a).2 = [])
  /\ (host a ∈ ALLOWED_HOSTS ->
        main w a =
          (let! port_list :=
             try_except (lift (parse_ports (ports a))) is_ValueError
               (fun e => log (BadPortSpecification e) ;; sys_exit 1) in
           sweep w a port_list ;;
           ret tt)).
Proof.
  split; [| split].
  - intros h. unfold ALLOWED_HOSTS.
    rewrite !elem_of_union, !elem_of_singleton. tauto.
  - intros Hh. assert (Hm : main w a
        = (inl (SystemExit 1), [Log (RefusingToScan (host a))])).
    { unfold main. by rewrite bool_decide_false. }
    rewrite Hm. done.
  - intros Hh. unfold main. by rewrite bool_decide_true.
Qed.

Lemma forbidden_target_exits_before_network_witness :
  exit_status (main Scenarios.silent
                 (with_workers 5 {| host := "10.0.0.7"; ports := "1-1024";
                                    workers := 50; timeout := 1 # 2;
                                    delay := 5 # 1000 |})).1 = 1
  /\ main Scenarios.silent (Scenarios.loopback "22") =
       (inr tt,
        [Log (StartingScan "127.0.0.1" 1 50); Submit "127.0.0.1" 22 (1 # 2);
         Sleep (5 # 1000); Log (PortStatus 22 false);
         Log (ScanComplete (inr "None"))]).
Proof.
  split.
  - refine (proj1 (proj2 (proj1 (proj2
      (forbidden_target_exits_before_network Scenarios.silent _)) _))).
    vm_compute. intros H. discriminate H.
  - rewrite (proj2 (proj2
      (forbidden_target_exits_before_network Scenarios.silent
         (Scenarios.loopback "22")))); [| by vm_compute].
    vm_compute. reflexivity.
Defined.

(** C5: [scan_port] always returns [(port, b)] and never raises; [b] is
    true exactly when the socket is created, the timeout accepted, the
    connection made ([connect_ex] answers 0) and the socket closed, each
    without a fault; a fault of any kind at any of these calls, like any
    non-zero answer of [connect_ex], gives [(port, False)]. *)
Theorem scan_port_total (w : world) (h : string) (port : Z) (tmo : float) :
  (exists b, (scan_port w h port tmo).1 = inr (port, b))
  /\ ((scan_port w h port tmo).1 = inr (port, true) <->
       socket_new w h port = None /\ is_duration tmo = true /\
       connect_ex w h port = inr 0 /\ socket_close w h port = None)
  /\ (forall f,
        socket_new w h port = Some f \/ connect_ex w h port = inl f \/
        socket_close w h port = Some f ->
        (scan_port w h port tmo).1 = inr (port, false))
  /\ (forall errno, connect_ex w h port = inr errno -> errno <> 0 ->
        (scan_port w h port tmo).1 = inr (port, false)).
Proof.
  rewrite scan_port_outcome. unfold connects. split; [eauto |].
  split; [| split].
  - destruct (socket_new w h port), (connect_ex w h port) as [|[| |]],
      (socket_close w h port), (is_duration tmo); split;
      try done; try (intros [= ?]; done); intros (? & ? & ? & ?); done.
  - intros f [Hf|[Hf|Hf]]; rewrite Hf;
      destruct (socket_new w h port), (connect_ex w h port) as [|[| |]]; done.
  - intros errno He Hnz. rewrite He.
    destruct (socket_new w h port), errno, (socket_close w h port); done.
Qed.

Lemma scan_port_total_witness :
  (scan_port Scenarios.silent "localhost" 22 (1 # 2)).1 = inr (22, false).
Proof.
  refine (proj1 (proj2 (proj2
    (scan_port_total Scenarios.silent "localhost" 22 (1 # 2)))) TimedOut _).
  right. left. reflexivity.
Defined.




(** C1, as the code has it: the list of open ports in the completion
    summary is the ports logged as open, in the order in which
    [as_completed] yielded their futures; it is a permutation of the
    ascending list of the open ports, and need not be ascending itself. *)
Theorem summary_lists_open_ports_in_yield_order
    (w : world) (a : args) (port_list : list Z) :
  host a ∈ ALLOWED_HOSTS -> parse_ports (ports a) = inr port_list ->
  0 < workers a -> is_duration (delay a) = true ->
  summary (main w a).2 = Some (shown (opened w a port_list))
  /\ opened w a port_list =
       (filter (fun r => r.2 = true) (probe_results (main w a).2)).*1
  /\ opened w a port_list ≡ₚ
       filter (fun p => connects w (host a) p (timeout a) = true) port_list
  /\ StronglySorted Z.lt
       (filter (fun p => connects w (host a) p (timeout a) = true) port_list).
Proof.
  intros Hh Hp Hw Hd.
  destruct (parse_ports_inr _ _ Hp) as [Hs _].
  assert (Hf : StronglySorted Z.lt
            (filter (fun p => connects w (host a) p (timeout a) = true) port_list))
    by (by apply StronglySorted_filter_lt).
  repeat split; try done.
  - by apply main_summary.
  - by rewrite (main_probe_results w a port_list).
  - apply opened_Permutation.
Qed.

Lemma summary_lists_open_ports_in_yield_order_witness :
  summary (main (Scenarios.transport [81] [2%nat])
             (Scenarios.loopback "81,443,80")).2
  = Some (shown (opened (Scenarios.transport [81] [2%nat])
                   (Scenarios.loopback "81,443,80") [80; 81; 443])).
Proof.
  refine (proj1 (summary_lists_open_ports_in_yield_order
                   (Scenarios.transport [81] [2%nat])
                   (Scenarios.loopback "81,443,80") [80; 81; 443] _ _ _ _)).
  - by vm_compute.
  - vm_compute. reflexivity.
  - reflexivity.
  - reflexivity.
Defined.

(** C1 fails as stated: when [as_completed] yields the future of port 443
    before the future of port 80, both open, the summary lists [443, 80]. *)
Lemma summary_not_sorted :
  summary (main (Scenarios.transport [] [1%nat]) (Scenarios.loopback "80,443")).2
  = Some (inl [443; 80])
  /\ ~ Sorted Z.le [443; 80].
Proof.
  split; [vm_compute; reflexivity |].
  intros Hs. apply Sorted_inv in Hs as [_ Hhd].
  apply HdRel_inv in Hhd. lia.
Qed.

(** C7, as the code has it: a completed sweep logs exactly one probe result
    per port of the port list, and the open ports of the summary are exactly
    the ports whose probe connected; where 22 and 80 connect and 81 does not,
    sweeping ["22,80,81"] logs three results and a summary that lists 22 and
    80 in some order, [22, 80] or [80, 22]. *)
Theorem sweep_reports_each_port_once :
  (forall (w : world) (a : args) (port_list : list Z),
     host a ∈ ALLOWED_HOSTS -> parse_ports (ports a) = inr port_list ->
     0 < workers a -> is_duration (delay a) = true ->
     (main w a).1 = inr tt
     /\ probe_results (main w a).2 ≡ₚ
          (fun p => (p, connects w (host a) p (timeout a))) <$> port_list
     /\ (probe_results (main w a).2).*1 ≡ₚ port_list
     /\ NoDup port_list
     /\ summary (main w a).2 = Some (shown (opened w a port_list))
     /\ forall p, p ∈ opened w a port_list <->
                  p ∈ port_list /\ connects w (host a) p (timeout a) = true)
  /\ (forall (w : world) (a : args),
        host a ∈ ALLOWED_HOSTS -> ports a = "22,80,81" ->
        0 < workers a -> is_duration (delay a) = true ->
        connects w (host a) 22 (timeout a) = true ->
        connects w (host a) 80 (timeout a) = true ->
        connects w (host a) 81 (timeout a) = false ->
        length (probe_results (main w a).2) = 3%nat
        /\ exists open_ports,
             summary (main w a).2 = Some (inl open_ports)
             /\ open_ports ≡ₚ [22; 80]).
Proof.
  split.
  - intros w a port_list Hh Hp Hw Hd.
    destruct (parse_ports_inr _ _ Hp) as [_ Hnd].
    split; [by apply (main_outcome w a port_list) |].
    rewrite (main_probe_results w a port_list) by done.
    split; [apply completed_Permutation |].
    split; [| split; [done |]; split; [by apply main_summary |]].
    + rewrite completed_Permutation, <- list_fmap_compose.
      by rewrite list_fmap_id.
    + intros p. rewrite opened_Permutation, list_elem_of_filter. tauto.
  - intros w a Hh Hspec Hw Hd H22 H80 H81.
    assert (Hp : parse_ports (ports a) = inr [22; 80; 81])
      by (rewrite Hspec; vm_compute; reflexivity).
    assert (Hopen : opened w a [22; 80; 81] ≡ₚ [22; 80]).
    { rewrite opened_Permutation.
      rewrite !filter_cons_True by done.
      by rewrite filter_cons_False by congruence. }
    split.
    + rewrite (main_probe_results w a [22; 80; 81]) by done.
      by rewrite completed_Permutation.
    + exists (opened w a [22; 80; 81]). split; [| done].
      rewrite (main_summary w a [22; 80; 81]) by done.
      destruct (opened w a [22; 80; 81]); [| done].
      by apply Permutation_nil_l in Hopen.
Qed.

Lemma sweep_reports_each_port_once_witness :
  length (probe_results
            (main (Scenarios.transport [81] [2%nat; 1%nat])
               (Scenarios.loopback "22,80,81")).2) = 3%nat
  /\ exists open_ports,
       summary (main (Scenarios.transport [81] [2%nat; 1%nat])
                  (Scenarios.loopback "22,80,81")).2 = Some (inl open_ports)
       /\ open_ports ≡ₚ [22; 80].
Proof.
  refine (proj2 sweep_reports_each_port_once
            (Scenarios.transport [81] [2%nat; 1%nat])
            (Scenarios.loopback "22,80,81") _ _ _ _ _ _ _); reflexivity.
Defined.

(** C7 fails as stated: on a transport where 22 and 80 answer and 81
    refuses, when [as_completed] yields the future of port 80 first, the
    three results are logged but the summary lists [80, 22], not [22, 80]. *)
Lemma sweep_open_ports_order :
  let run := main (Scenarios.transport [81] [1%nat]) (Scenarios.loopback "22,80,81") in
  probe_results run.2 = [(80, true); (22, true); (81, false)]
  /\ summary run.2 = Some (inl [80; 22])
  /\ summary run.2 <> Some (inl [22; 80]).
Proof.
  assert (Hs : summary (main (Scenarios.transport [81] [1%nat])
                          (Scenarios.loopback "22,80,81")).2
               = Some (inl [80; 22])) by (vm_compute; reflexivity).
  cbv zeta. rewrite Hs. split; [vm_compute; reflexivity |]. split; [done |].
  intros [= ?].
Qed.

(** A specification of blank segments has no parts. *)
Lemma blank_parts (port_spec : string) : blank port_spec -> parts port_spec = [].
Proof.
  unfold blank, parts. generalize (split "," port_spec).
  induction 1 as [|piece l Hp _ IH]; [done |].
  rewrite filter_cons_False; [done |]. rewrite Hp. intros [].
Qed.

(** C10: a port specification that is empty or made of blank segments only
    parses to the empty port list; for an allowed host and a pool of at least
    one worker, [main] then logs the start and the summary, submits no probe,
    makes no socket call, and ends with exit status 0.  [""] and [" , ,"]
    are such specifications. *)
Theorem blank_specification_scans_nothing :
  (forall port_spec, blank port_spec ->
     parse_ports port_spec = inr []
     /\ forall (w : world) (a : args),
          ports a = port_spec -> host a ∈ ALLOWED_HOSTS -> 0 < workers a ->
          main w a = (inr tt, [Log (StartingScan (host a) 0 (workers a));
                               Log (ScanComplete (inr "None"))])
          /\ exit_status (main w a).1 = 0
          /\ submitted (main w a).2 = []
          /\ network_io w (main w a).2 = [])
  /\ blank "" /\ blank " , ,".
Proof.
  split; [| split; repeat constructor].
  intros port_spec Hb.
  assert (Hp : parse_ports port_spec = inr []).
  { unfold parse_ports. rewrite (blank_parts _ Hb). simpl.
    unfold sorted. by rewrite elements_empty. }
  split; [done |]. intros w a Ha Hh Hw.
  assert (Hm : main w a = (inr tt, [Log (StartingScan (host a) 0 (workers a));
                                    Log (ScanComplete (inr "None"))])).
  { unfold main. rewrite bool_decide_true by done. rewrite Ha, Hp.
    unfold sweep, with_executor.
    destruct (Z.leb_spec (workers a) 0) as [?|_]; [lia |].
    simpl. by destruct (yield_order w). }
  rewrite Hm. done.
Qed.

Lemma blank_specification_scans_nothing_witness :
  blank " ,  ," /\
  exit_status (main (Scenarios.transport [] []) (Scenarios.loopback " ,  ,")).1 = 0.
Proof.
  assert (Hb : blank " ,  ,") by (repeat constructor).
  split; [exact Hb |].
  refine (proj1 (proj2 (proj2 (proj1 blank_specification_scans_nothing _ Hb)
                          (Scenarios.transport [] []) (Scenarios.loopback " ,  ,")
                          _ _ _))).
  - reflexivity.
  - by vm_compute.
  - reflexivity.
Defined.

End Scanner.

(** ** The interactive client *)
Section Client.
Import Py theClient.

Lemma truthy_nonempty (s : string) : truthy s = true <-> s <> "".
Proof. destruct s; simpl; split; congruence. Qed.

Lemma turn_end_of_input (k : key_event) (x : exchange) :
  k = EndOfInput \/ k = Interrupt ->
  turn k x = (inr Break, [Input; Log InputInterrupted]).
Proof. by intros [-> | ->]. Qed.

Lemma turn_blank (text : string) (x : exchange) :
  strip text = "" -> turn (Line text) x = (inr Continue, [Input]).
Proof. intros Hs. unfold turn. simpl. by rewrite Hs. Qed.

Lemma turn_keyword (text : string) (x : exchange) :
  strip text <> "" -> is_keyword (strip text) = true ->
  turn (Line text) x = (inr Break, [Input; Log RequestedDisconnect]).
Proof.
  intros Hs Hk. apply truthy_nonempty in Hs. unfold turn. simpl.
  by rewrite Hs, Hk.
Qed.

(** A turn on a line that is a message: what is sent, and how the turn ends
    on each answer of the peer. *)
Lemma turn_message (text : string) (x : exchange) :
  strip text <> "" -> is_keyword (strip text) = false ->
  turn (Line text) x =
    match sendall_raises x with
    | Some e =>
        if is_BrokenPipeError e
        then (inr Break, [Input; SendAll (encode (strip text));
                          Log ServerClosedBrokenPipe])
        else (inl e, [Input; SendAll (encode (strip text))])
    | None =>
        match recv_gives x with
        | inr [] => (inr Break, [Input; SendAll (encode (strip text));
                                 Recv 4096; Log ServerClosed])
        | inr data => (inr Continue, [Input; SendAll (encode (strip text));
                                      Recv 4096; Log (Received data)])
        | inl e =>
            if is_socket_timeout e
            then (inr Continue, [Input; SendAll (encode (strip text));
                                 Recv 4096; Log TimedOutWaiting])
            else (inl e, [Input; SendAll (encode (strip text)); Recv 4096])
        end
    end.
Proof.
  intros Hs Hk. apply truthy_nonempty in Hs. unfold turn, sendall, recv. simpl.
  rewrite Hs, Hk. simpl.
  destruct (sendall_raises x) as [e|]; simpl.
  - by destruct (is_BrokenPipeError e).
  - destruct (recv_gives x) as [e|[|b data]]; simpl; try done.
    by destruct (is_socket_timeout e).
Qed.

Lemma turn_message_sends (text : string) (x : exchange) :
  strip text <> "" -> is_keyword (strip text) = false ->
  sends (turn (Line text) x).2 = [encode (strip text)].
Proof.
  intros Hs Hk. rewrite turn_message by done.
  destruct (sendall_raises x) as [e|].
  - by destruct (is_BrokenPipeError e).
  - destruct (recv_gives x) as [e|[|b data]]; try done.
    by destruct (is_socket_timeout e).
Qed.

Lemma client_loop_answering (w : world) (keys : list key_event) (n : nat) :
  answering w ->
  (client_loop w keys n).1 = inr tt /\
  sends (client_loop w keys n).2 = expected_sends keys.
Proof.
  intros Hw. revert n. induction keys as [|k keys IH]; intros n; [done |].
  destruct k as [text| |]; [| done | done].
  cbn [client_loop expected_sends].
  destruct (truthy (strip text)) eqn:Ht; cbn [negb].
  - apply truthy_nonempty in Ht.
    destruct (is_keyword (strip text)) eqn:Hk.
    + by rewrite turn_keyword.
    + rewrite turn_message by done.
      destruct (Hw n) as (-> & b & data & ->).
      cbn -[client_loop].
      specialize (IH (n + 1)%nat).
      destruct (client_loop w keys (n + 1)) as [r t]. cbn in IH |- *.
      destruct IH as [-> ->]. done.
  - assert (Hs : strip text = "") by (by destruct (strip text)).
    rewrite turn_blank by done. cbn -[client_loop].
    rewrite Nat.add_0_r. specialize (IH n).
    destruct (client_loop w keys n) as [r t]. done.
Qed.

Lemma is_keyword_spec (s : string) :
  is_keyword s = true <-> lower s = "quit" \/ lower s = "exit".
Proof.
  unfold is_keyword. rewrite orb_true_iff, !String.eqb_eq. done.
Qed.

Lemma turn_breaks_answered (k : key_event) (x : exchange) :
  sendall_raises x = None ->
  (exists b data, recv_gives x = inr (b :: data)) ->
  (turn k x).1 = inr Break <->
  k = EndOfInput \/ k = Interrupt \/
  exists text, k = Line text /\ strip text <> "" /\ is_keyword (strip text) = true.
Proof.
  intros Hsend (b & data & Hrecv).
  destruct k as [text| |]; [| by split; auto | by split; auto].
  destruct (decide (strip text = "")) as [Hs|Hs].
  - rewrite turn_blank by done. split; [done |].
    intros [?|[?|(t & [= <-] & ? & _)]]; done.
  - destruct (is_keyword (strip text)) eqn:Hk.
    + rewrite turn_keyword by done. split; [| done].
      intros _. right. right. by exists text.
    + rewrite turn_message, Hsend, Hrecv by done. split; [done |].
      intros [?|[?|(t & [= <-] & _ & ?)]]; congruence.
Qed.

(** C9, as the code has it: the client strips the white space around every
    input line; a line that is then empty is skipped and nothing is sent; a
    line that, lower-cased, is then [quit] or [exit] ends the session with
    nothing sent, as do the end of the input and a keyboard interrupt; any
    other line is sent stripped, encoded as UTF-8.  With a peer that answers
    every message these are the only ways the session ends, and what is sent
    is the stripped messages up to the first of them. *)
Theorem client_sends_stripped_lines :
  (forall k x, k = EndOfInput \/ k = Interrupt ->
     turn k x = (inr Break, [Input; Log InputInterrupted]))
  /\ (forall text x, strip text = "" ->
        turn (Line text) x = (inr Continue, [Input]))
  /\ (forall text x, strip text <> "" -> is_keyword (strip text) = true ->
        turn (Line text) x = (inr Break, [Input; Log RequestedDisconnect]))
  /\ (forall text x, strip text <> "" -> is_keyword (strip text) = false ->
        sends (turn (Line text) x).2 = [encode (strip text)])
  /\ (forall s, is_keyword s = true <-> lower s = "quit" \/ lower s = "exit")
  /\ (forall k x, sendall_raises x = None ->
        (exists b data, recv_gives x = inr (b :: data)) ->
        (turn k x).1 = inr Break <->
        k = EndOfInput \/ k = Interrupt \/
        exists text, k = Line text /\ strip text <> "" /\
                     is_keyword (strip text) = true)
  /\ (forall w keys, answering w ->
        (client_loop w keys 0).1 = inr tt /\
        sends (client_loop w keys 0).2 = expected_sends keys).
Proof.
  split; [exact turn_end_of_input |].
  split; [exact turn_blank |].
  split; [exact turn_keyword |].
  split; [exact turn_message_sends |].
  split; [exact is_keyword_spec |].
  split; [exact turn_breaks_answered |].
  intros w keys Hw. by apply client_loop_answering.
Qed.

Lemma client_sends_stripped_lines_witness :
  sends (turn (Line "  hello ")
           {| sendall_raises := None; recv_gives := inr [79; 75] |}).2
  = [encode "hello"].
Proof.
  refine (proj1 (proj2 (proj2 (proj2 client_sends_stripped_lines)))
            "  hello " _ _ _).
  - vm_compute. intros H. discriminate H.
  - reflexivity.
Defined.

(** C9 fails as stated: the line ["  hello "] is not sent verbatim but
    stripped, and the line ["QUIT"], which is neither [quit] nor [exit],
    ends the session before the next line is read. *)
Lemma client_not_verbatim :
  sends (interactive_client (Scenarios.typing [Line "  hello "])
           ("127.0.0.1", 9000) 5).2 = [encode "hello"]
  /\ encode "hello" <> encode "  hello "
  /\ sends (interactive_client (Scenarios.typing [Line "QUIT"; Line "after"])
              ("127.0.0.1", 9000) 5).2 = [].
Proof.
  split; [vm_compute; reflexivity |].
  split; [vm_compute; intros H; discriminate H |].
  vm_compute. reflexivity.
Qed.

End Client.

(** ** More on [parse_ports] *)
Section ParsePortsMore.
Import Py port_scanner PortSpec.

Lemma parse_ports_inr_valid (port_spec : string) (ps : list Z) :
  parse_ports port_spec = inr ps -> valid port_spec.
Proof.
  intros Hp. destruct (valid_or_invalid (parts port_spec)) as [Hv|Hex]; [done |].
  destruct (parse_loop_invalid _ ∅ Hex) as (d & Hd).
  unfold parse_ports in Hp. rewrite Hd in Hp. done.
Qed.

Lemma parse_ports_inl_invalid (port_spec : string) (e : exn) :
  parse_ports port_spec = inl e ->
  Exists (fun part => malformed (read_segment part)) (parts port_spec)
  /\ is_ValueError e = true.
Proof.
  intros He. destruct (valid_or_invalid (parts port_spec)) as [Hv|Hex].
  - destruct (parse_ports_valid _ Hv) as (ps & Hps & _). congruence.
  - split; [done |]. destruct (parse_loop_invalid _ ∅ Hex) as (d & Hd).
    unfold parse_ports in He. rewrite Hd in He. simpl in He. by injection He as <-.
Qed.

Lemma parse_ports_elem_of (port_spec : string) (ps : list Z) (p : Z) :
  parse_ports port_spec = inr ps -> p ∈ ps <-> union port_spec p.
Proof.
  intros Hp. destruct (parse_ports_valid _ (parse_ports_inr_valid _ _ Hp))
    as (ps' & Hps' & Hmem).
  rewrite Hp in Hps'. injection Hps' as <-. apply Hmem.
Qed.

Lemma parse_ports_in_range (port_spec : string) (ps : list Z) (p : Z) :
  parse_ports port_spec = inr ps -> p ∈ ps -> 1 <= p <= 65535.
Proof.
  intros Hp Hin. apply (union_in_range port_spec).
  - by apply (parse_ports_inr_valid _ ps).
  - by apply (parse_ports_elem_of _ ps).
Qed.

(** X1: [parse_ports] is a canonical form: two specifications that list the
    same ports parse to the same list, whatever the order, the overlap and
    the spelling of their segments. *)
Theorem parse_ports_canonical (spec1 spec2 : string) (ps1 ps2 : list Z) :
  parse_ports spec1 = inr ps1 -> parse_ports spec2 = inr ps2 ->
  (forall p, union spec1 p <-> union spec2 p) ->
  ps1 = ps2.
Proof.
  intros H1 H2 Hu.
  unfold parse_ports in H1, H2.
  destruct (parse_loop (parts spec1) ∅) as [|s1] eqn:E1; [done |].
  destruct (parse_loop (parts spec2) ∅) as [|s2] eqn:E2; [done |].
  simpl in H1, H2. injection H1 as <-. injection H2 as <-.
  assert (Hs : s1 = s2); [| by rewrite Hs].
  apply set_eq. intros p.
  rewrite <- !elem_of_sorted.
  rewrite (parse_ports_elem_of spec1 (sorted s1))
    by (unfold parse_ports; by rewrite E1).
  rewrite (parse_ports_elem_of spec2 (sorted s2))
    by (unfold parse_ports; by rewrite E2).
  apply Hu.
Qed.

Lemma parse_ports_canonical_witness :
  parse_ports "80,22-24,23" = inr [22; 23; 24; 80]
  /\ parse_ports " 22 , 23,24-24,80,80" = inr [22; 23; 24; 80]
  /\ [22; 23; 24; 80] = [22; 23; 24; 80].
Proof.
  assert (H1 : parse_ports "80,22-24,23" = inr [22; 23; 24; 80])
    by (vm_compute; reflexivity).
  assert (H2 : parse_ports " 22 , 23,24-24,80,80" = inr [22; 23; 24; 80])
    by (vm_compute; reflexivity).
  split; [exact H1 |]. split; [exact H2 |].
  refine (parse_ports_canonical _ _ _ _ H1 H2 _).
  intros p. by rewrite <- (parse_ports_elem_of _ _ p H1),
                       <- (parse_ports_elem_of _ _ p H2).
Defined.



(** Joining specifications with a comma. *)
Lemma split_nonempty (sep : ascii) (s : string) : split sep s <> [].
Proof.
  destruct s as [|c s]; simpl; [done |].
  destruct (Ascii.eqb c sep); [done |]. by destruct (split sep s).
Qed.

Lemma split_join (sep : ascii) (s1 s2 : string) :
  split sep (s1 +:+ String sep s2) = split sep s1 ++ split sep s2.
Proof.
  induction s1 as [|c s1 IH]; simpl.
  - by rewrite Ascii.eqb_refl.
  - destruct (Ascii.eqb c sep); [by rewrite IH |].
    rewrite IH. pose proof (split_nonempty sep s1).
    by destruct (split sep s1).
Qed.

Lemma parts_join (spec1 spec2 : string) :
  parts (spec1 +:+ "," +:+ spec2) = parts spec1 ++ parts spec2.
Proof.
  unfold parts. change ("," +:+ spec2) with (String "," spec2).
  by rewrite split_join, filter_app, fmap_app.
Qed.

Lemma valid_join (spec1 spec2 : string) :
  valid (spec1 +:+ "," +:+ spec2) <-> valid spec1 /\ valid spec2.
Proof. unfold valid. rewrite parts_join. apply Forall_app. Qed.

Lemma union_join (spec1 spec2 : string) (p : Z) :
  union (spec1 +:+ "," +:+ spec2) p <-> union spec1 p \/ union spec2 p.
Proof.
  unfold union. rewrite parts_join. split.
  - intros (part & [Hin|Hin]%elem_of_app & Hl); [left | right]; eauto.
  - intros [(part & Hin & Hl)|(part & Hin & Hl)]; exists part;
      (split; [apply elem_of_app; auto | done]).
Qed.

(** X3: two specifications joined by a comma parse to the union of their
    port lists, and the joined specification is rejected exactly when one of
    the two is. *)
Theorem parse_ports_join (spec1 spec2 : string) :
  (forall ps1 ps2,
     parse_ports spec1 = inr ps1 -> parse_ports spec2 = inr ps2 ->
     exists ps, parse_ports (spec1 +:+ "," +:+ spec2) = inr ps
                /\ forall p, p ∈ ps <-> p ∈ ps1 \/ p ∈ ps2)
  /\ ((exists e, parse_ports (spec1 +:+ "," +:+ spec2) = inl e) <->
      (exists e, parse_ports spec1 = inl e) \/ (exists e, parse_ports spec2 = inl e)).
Proof.
  split.
  - intros ps1 ps2 H1 H2.
    assert (Hv : valid (spec1 +:+ "," +:+ spec2)).
    { apply valid_join. split; eapply parse_ports_inr_valid; eauto. }
    destruct (parse_ports_valid _ Hv) as (ps & Hps & Hmem).
    exists ps. split; [done |]. intros p.
    rewrite Hmem, union_join.
    by rewrite (parse_ports_elem_of _ _ p H1), (parse_ports_elem_of _ _ p H2).
  - split.
    + intros (e & He).
      destruct (parse_ports spec1) as [e1|ps1] eqn:H1; [eauto |].
      destruct (parse_ports spec2) as [e2|ps2] eqn:H2; [eauto |].
      assert (Hv : valid (spec1 +:+ "," +:+ spec2)).
      { apply valid_join. split; eapply parse_ports_inr_valid; eauto. }
      destruct (parse_ports_valid _ Hv) as (ps & Hps & _). congruence.
    + intros Hbad.
      destruct (parse_ports (spec1 +:+ "," +:+ spec2)) as [e|ps] eqn:Hp; [eauto |].
      apply parse_ports_inr_valid, valid_join in Hp as [Hv1 Hv2].
      destruct (parse_ports_valid _ Hv1) as (ps1 & Hps1 & _).
      destruct (parse_ports_valid _ Hv2) as (ps2 & Hps2 & _).
      destruct Hbad as [(e & He)|(e & He)]; congruence.
Qed.

Lemma parse_ports_join_witness :
  exists ps, parse_ports ("80,443" +:+ "," +:+ "20-22") = inr ps
             /\ forall p, p ∈ ps <-> p ∈ [80; 443] \/ p ∈ [20; 21; 22].
Proof.
  refine (proj1 (parse_ports_join "80,443" "20-22") [80; 443] [20; 21; 22] _ _);
    vm_compute; reflexivity.
Defined.

(** What the loop does once the segments before a malformed one are well
    formed: it stops at that segment. *)
Lemma parse_loop_app (ps1 ps2 : list string) (acc : gset Z) :
  parse_loop (ps1 ++ ps2) acc =
  bind (parse_loop ps1 acc) (fun ports => parse_loop ps2 ports).
Proof.
  revert acc. induction ps1 as [|part ps1 IH]; intros acc; [done |].
  cbn [app parse_loop].
  destruct (contains "-" part).
  - destruct (split1 "-" part) as [|a [|b [|c l]]]; try done.
    destruct (int_of a) as [?|x]; [done |]. destruct (int_of b) as [?|y]; [done |].
    cbn [bind]. by destruct (_ || _).
  - destruct (int_of part) as [?|n]; [done |]. cbn [bind]. by destruct (_ || _).
Qed.

(** X4: the error names the first offending segment: after well-formed
    segments, a range whose integer bounds break [1 <= a <= b <= 65535]
    raises [ValueError] with that segment in its message, and a single port
    outside [1, 65535] raises [ValueError] with that number; the segments
    after it are not looked at. *)
Theorem parse_ports_reports_first_offender
    (port_spec : string) (good rest : list string) (bad : string) :
  parts port_spec = good ++ bad :: rest ->
  Forall (fun part => well_formed (read_segment part)) good ->
  (forall a b, read_segment bad = Range a b -> malformed (Range a b) ->
     parse_ports port_spec = inl (ValueError ("Invalid port range: " +:+ bad)))
  /\ (forall n, read_segment bad = Single n -> malformed (Single n) ->
        parse_ports port_spec = inl (ValueError ("Invalid port number: " +:+ pretty n))).
Proof.
  intros Hparts Hgood.
  destruct (parse_loop_valid good ∅ Hgood) as (s & Hs & _).
  unfold parse_ports. rewrite Hparts, parse_loop_app, Hs. cbn [bind parse_loop].
  unfold read_segment, int_of. split.
  - intros a b Hr Hbad. destruct (contains "-" bad).
    + destruct (split1 "-" bad) as [|x [|y [|z l]]]; try done.
      destruct (int x) as [a'|]; [| done]. destruct (int y) as [b'|]; [| done].
      injection Hr as -> ->. cbn [bind]. simpl in Hbad.
      destruct (a <? 1) eqn:Ha; [done |]. destruct (65535 <? b) eqn:Hb; [done |].
      destruct (b <? a) eqn:Hab; [done |]. lia.
    + by destruct (int bad).
  - intros n Hr Hbad. destruct (contains "-" bad).
    + destruct (split1 "-" bad) as [|x [|y [|z l]]]; try done.
      by destruct (int x), (int y).
    + destruct (int bad) as [n'|]; [| done]. injection Hr as ->. cbn [bind].
      simpl in Hbad.
      destruct (n <? 1) eqn:Ha; [done |]. destruct (65535 <? n) eqn:Hb; [done |]. lia.
Qed.

Lemma parse_ports_reports_first_offender_witness :
  parse_ports "22, 90-80 ,x" = inl (ValueError ("Invalid port range: " +:+ "90-80")).
Proof.
  refine (proj1 (parse_ports_reports_first_offender
                   "22, 90-80 ,x" ["22"] ["x"] "90-80" _ _) 90 80 _ _).
  - vm_compute. reflexivity.
  - repeat constructor; vm_compute; congruence.
  - vm_compute. reflexivity.
  - simpl. lia.
Defined.

End ParsePortsMore.

(** ** More on the sweep: the ways [main] ends, and what reaches the network *)
Section ScannerMore.
Import Py port_scanner PortSpec Network.

(** The socket calls of one probe. *)
Lemma scan_port_trace (w : world) (h : string) (port : Z) (tmo : float) :
  (scan_port w h port tmo).2 =
    match socket_new w h port with
    | Some _ => []
    | None =>
        SockOpen h port
        :: (if is_duration tmo then [SockSetTimeout tmo; SockConnect h port] else [])
        ++ [SockClose h port]
    end.
Proof.
  unfold scan_port, with_socket, sock_connect_ex.
  destruct (socket_new w h port) as [f|]; simpl;
    [by rewrite raised_is_Exception |].
  destruct (is_duration tmo) eqn:Ht.
  - rewrite (settimeout_accepts tmo Ht). simpl.
    destruct (connect_ex w h port) as [f|errno]; simpl;
      destruct (socket_close w h port) as [g|]; simpl;
      rewrite ?raised_is_Exception; simpl; done.
  - destruct (settimeout_rejects tmo Ht) as (e & -> & He). simpl.
    destruct (socket_close w h port) as [g|]; simpl;
      rewrite ?raised_is_Exception, ?He; simpl; done.
Qed.

Lemma main_refused (w : world) (a : args) :
  host a ∉ ALLOWED_HOSTS ->
  main w a = (inl (SystemExit 1), [Log (RefusingToScan (host a))]).
Proof. intros Hh. unfold main. by rewrite bool_decide_false. Qed.

Lemma main_bad_spec (w : world) (a : args) (e : exn) :
  host a ∈ ALLOWED_HOSTS -> parse_ports (ports a) = inl e ->
  main w a = (inl (SystemExit 1), [Log (BadPortSpecification e)]).
Proof.
  intros Hh He. destruct (parse_ports_inl_invalid _ _ He) as [_ Hv].
  unfold main. rewrite bool_decide_true by done. rewrite He.
  unfold try_except, lift. by rewrite Hv.
Qed.

Lemma main_no_pool (w : world) (a : args) (port_list : list Z) :
  host a ∈ ALLOWED_HOSTS -> parse_ports (ports a) = inr port_list ->
  workers a <= 0 ->
  main w a = (inl (ValueError "max_workers must be greater than 0"),
              [Log (StartingScan (host a) (length port_list) (workers a))]).
Proof.
  intros Hh Hp Hw. unfold main. rewrite bool_decide_true by done. rewrite Hp.
  unfold sweep, with_executor.
  destruct (Z.leb_spec (workers a) 0) as [_|?]; [done | lia].
Qed.

Lemma main_no_ports (w : world) (a : args) :
  host a ∈ ALLOWED_HOSTS -> parse_ports (ports a) = inr [] -> 0 < workers a ->
  main w a = (inr tt, [Log (StartingScan (host a) 0 (workers a));
                       Log (ScanComplete (inr "None"))]).
Proof.
  intros Hh Hp Hw. unfold main. rewrite bool_decide_true by done. rewrite Hp.
  unfold sweep, with_executor.
  destruct (Z.leb_spec (workers a) 0) as [?|_]; [lia |].
  simpl. by destruct (yield_order w).
Qed.

Lemma submit_loop_impolite (w : world) (a : args) (port : Z) (rest : list Z)
    (futures : list (future * Z)) (e : exn) :
  time_sleep (delay a) = raise e ->
  submit_loop w a (port :: rest) futures =
    (inl e, [Submit (host a) port (timeout a)]).
Proof.
  intros Hd. cbn [submit_loop]. unfold submit. by rewrite Hd.
Qed.

Lemma main_impolite (w : world) (a : args) (port : Z) (rest : list Z) (e : exn) :
  host a ∈ ALLOWED_HOSTS -> parse_ports (ports a) = inr (port :: rest) ->
  0 < workers a -> time_sleep (delay a) = raise e ->
  main w a = (inl e,
              [Log (StartingScan (host a) (S (length rest)) (workers a));
               Submit (host a) port (timeout a)]).
Proof.
  intros Hh Hp Hw Hd. unfold main. rewrite bool_decide_true by done. rewrite Hp.
  unfold sweep, with_executor.
  destruct (Z.leb_spec (workers a) 0) as [?|_]; [lia |].
  cbn -[submit_loop report_loop as_completed].
  by rewrite (submit_loop_impolite w a port rest [] e Hd).
Qed.

(** X5: with an allowed host and a port specification that has a malformed
    segment, [main] logs the [ValueError] of [parse_ports] as a bad port
    specification and exits with status 1; nothing is submitted and no socket
    call is made. *)
Theorem bad_specification_exits_before_network (w : world) (a : args) :
  host a ∈ ALLOWED_HOSTS ->
  Exists (fun part => malformed (read_segment part)) (parts (ports a)) ->
  exists d,
    parse_ports (ports a) = inl (ValueError d)
    /\ main w a = (inl (SystemExit 1), [Log (BadPortSpecification (ValueError d))])
    /\ exit_status (main w a).1 = 1
    /\ submitted (main w a).2 = []
    /\ network_io w (main w a).2 = [].
Proof.
  intros Hh Hex. destruct (parse_loop_invalid _ ∅ Hex) as (d & Hd).
  assert (Hp : parse_ports (ports a) = inl (ValueError d))
    by (unfold parse_ports; by rewrite Hd).
  exists d. split; [done |]. rewrite (main_bad_spec w a _ Hh Hp). done.
Qed.

Lemma bad_specification_exits_before_network_witness :
  exists d,
    parse_ports (ports (Scenarios.loopback "22,http")) = inl (ValueError d)
    /\ main Scenarios.silent (Scenarios.loopback "22,http")
       = (inl (SystemExit 1), [Log (BadPortSpecification (ValueError d))])
    /\ exit_status (main Scenarios.silent (Scenarios.loopback "22,http")).1 = 1
    /\ submitted (main Scenarios.silent (Scenarios.loopback "22,http")).2 = []
    /\ network_io Scenarios.silent
         (main Scenarios.silent (Scenarios.loopback "22,http")).2 = [].
Proof.
  refine (bad_specification_exits_before_network Scenarios.silent
            (Scenarios.loopback "22,http") _ _).
  - by vm_compute.
  - vm_compute parts. apply Exists_cons_tl, Exists_cons_hd. vm_compute. exact I.
Defined.

(** X6: with [--workers] zero or negative, the pool cannot be created:
    [main] logs the start of the scan and ends on an uncaught [ValueError]
    (exit status 1), with no probe submitted, no result and no summary
    logged. *)
Theorem no_workers_crashes_before_probing
    (w : world) (a : args) (port_list : list Z) :
  host a ∈ ALLOWED_HOSTS -> parse_ports (ports a) = inr port_list ->
  workers a <= 0 ->
  main w a = (inl (ValueError "max_workers must be greater than 0"),
              [Log (StartingScan (host a) (length port_list) (workers a))])
  /\ exit_status (main w a).1 = 1
  /\ network_io w (main w a).2 = []
  /\ summary (main w a).2 = None.
Proof.
  intros Hh Hp Hw. rewrite (main_no_pool w a port_list) by done. done.
Qed.

Lemma no_workers_crashes_before_probing_witness :
  exit_status (main Scenarios.silent
                 (with_workers 0 (Scenarios.loopback "22,80"))).1 = 1.
Proof.
  refine (proj1 (proj2 (no_workers_crashes_before_probing Scenarios.silent
                          (with_workers 0 (Scenarios.loopback "22,80"))
                          [22; 80] _ _ _))).
  - by vm_compute.
  - vm_compute. reflexivity.
  - simpl. lia.
Defined.

(** X7: with a [--delay] that [time.sleep] rejects (negative, NaN or too
    large for a timestamp) and at least one port, the first port is submitted
    and probed, then [time.sleep] raises: [main] ends on the uncaught
    exception (exit status 1), which is the [ValueError] of a negative sleep
    length whenever the delay has a timestamp and that is negative, as for
    [-0.01]; no other port is probed, and neither a result nor the summary
    is logged. *)
Theorem negative_delay_probes_first_port_only
    (w : world) (a : args) (port : Z) (rest : list Z) :
  host a ∈ ALLOWED_HOSTS -> parse_ports (ports a) = inr (port :: rest) ->
  0 < workers a -> is_duration (delay a) = false ->
  (exists e, time_sleep (delay a) = raise e /\ (main w a).1 = inl e)
  /\ (timestamp_is_negative (delay a) = inr true ->
      (main w a).1 = inl (ValueError "sleep length must be non-negative"))
  /\ exit_status (main w a).1 = 1
  /\ submitted (main w a).2 = [port]
  /\ network_io w (main w a).2 = (scan_port w (host a) port (timeout a)).2
  /\ probe_results (main w a).2 = []
  /\ summary (main w a).2 = None.
Proof.
  intros Hh Hp Hw Hd.
  destruct (time_sleep_rejects _ Hd) as (e & He & _ & Hexit & Hneg).
  rewrite (main_impolite w a port rest e) by done. cbn [fst snd].
  split; [by exists e |]. split; [by intros ->%Hneg |].
  repeat split; try done. cbn. by rewrite app_nil_r.
Qed.

Lemma negative_delay_probes_first_port_only_witness :
  (main Scenarios.silent
     {| host := "localhost"; ports := "22,80"; workers := 50;
        timeout := 1 # 2; delay := - 1 # 100 |}).1
  = inl (ValueError "sleep length must be non-negative")
  /\ submitted (main Scenarios.silent
                  {| host := "localhost"; ports := "22,80"; workers := 50;
                     timeout := 1 # 2; delay := - 1 # 100 |}).2 = [22].
Proof.
  pose proof (negative_delay_probes_first_port_only
                Scenarios.silent
                {| host := "localhost"; ports := "22,80"; workers := 50;
                   timeout := 1 # 2; delay := - 1 # 100 |} 22 [80]) as H.
  destruct H as (_ & Hneg & _ & Hsub & _).
  - by vm_compute.
  - vm_compute. reflexivity.
  - reflexivity.
  - reflexivity.
  - split; [apply Hneg; reflexivity | exact Hsub].
Defined.



(** *** Socket calls of a whole run *)

Lemma network_io_app (w : world) (t1 t2 : list event) :
  network_io w (t1 ++ t2) = network_io w t1 ++ network_io w t2.
Proof. unfold network_io. apply flat_map_app. Qed.

Lemma network_io_submissions (w : world) (a : args) (port_list : list Z) :
  network_io w
    (port_list ≫= (fun port => [Submit (host a) port (timeout a); Sleep (delay a)]))
  = port_list ≫= (fun port => (scan_port w (host a) port (timeout a)).2).
Proof.
  induction port_list as [|port rest IH]; [done |].
  cbn [mbind list_bind]. rewrite network_io_app, IH. cbn. by rewrite app_nil_r.
Qed.

Lemma network_io_of_logs {A} (w : world) (g : A -> log_msg) (l : list A) :
  network_io w ((fun x => Log (g x)) <$> l) = [].
Proof. unfold network_io. induction l as [|x l IH]; done. Qed.

Lemma main_network_io (w : world) (a : args) (port_list : list Z) :
  host a ∈ ALLOWED_HOSTS -> parse_ports (ports a) = inr port_list ->
  0 < workers a -> is_duration (delay a) = true ->
  network_io w (main w a).2 =
  port_list ≫= (fun port => (scan_port w (host a) port (timeout a)).2).
Proof.
  intros Hh Hp Hw Hd. rewrite (main_run w a port_list) by done. cbn [snd].
  change (Log ?m :: ?t) with ([Log m] ++ t).
  rewrite !network_io_app, network_io_submissions.
  rewrite (network_io_of_logs w (fun r => PortStatus r.1 r.2)).
  cbn. by rewrite app_nil_r.
Qed.

(** X9: a probe that gets a socket closes it again on every way out: in
    the socket calls of [scan_port] the socket is opened first and closed
    last, with nothing between but the timeout being set and the connection
    attempted, and with nothing between at all when [settimeout] rejects the
    timeout; when the socket cannot be created no call follows. *)
Theorem probe_closes_its_socket (w : world) (h : string) (port : Z) (tmo : float) :
  (forall f, socket_new w h port = Some f -> (scan_port w h port tmo).2 = [])
  /\ (socket_new w h port = None ->
      exists calls,
        (scan_port w h port tmo).2 = [SockOpen h port] ++ calls ++ [SockClose h port]
        /\ Forall (fun ev => ev = SockSetTimeout tmo \/ ev = SockConnect h port) calls
        /\ (is_duration tmo = false -> calls = [])).
Proof.
  rewrite scan_port_trace. split.
  - by intros f ->.
  - intros ->. eexists. split; [reflexivity |].
    destruct (is_duration tmo); split; try done.
    apply Forall_cons; split; [by left |].
    apply Forall_cons; split; [by right | apply Forall_nil_2].
Qed.

Lemma probe_closes_its_socket_witness :
  exists calls,
    (scan_port Scenarios.silent "localhost" 22 (- 1 # 1)).2 =
      [SockOpen "localhost" 22] ++ calls ++ [SockClose "localhost" 22]
    /\ Forall (fun ev => ev = SockSetTimeout (- 1 # 1)
                        \/ ev = SockConnect "localhost" 22) calls
    /\ (is_duration (- 1 # 1) = false -> calls = []).
Proof.
  refine (proj2 (probe_closes_its_socket Scenarios.silent "localhost" 22 (- 1 # 1)) _).
  reflexivity.
Defined.

Lemma connect_attempt_submitted (w : world) (t : list event) (h : string) (p : Z) :
  (h, p) ∈ connect_attempts (network_io w t) -> exists tmo, Submit h p tmo ∈ t.
Proof.
  induction t as [|ev t IH]; [by intros ?%elem_of_nil |].
  change (ev :: t) with ([ev] ++ t). rewrite network_io_app.
  unfold connect_attempts in *. rewrite omap_app.
  intros [Hin|Hin]%elem_of_app.
  - destruct ev as [| h' port tmo | | | | |]; try by apply elem_of_nil in Hin.
    cbn in Hin. rewrite app_nil_r, scan_port_trace in Hin.
    destruct (socket_new w h' port); [by apply elem_of_nil in Hin |].
    destruct (is_duration tmo); cbn in Hin.
    + apply list_elem_of_singleton in Hin as [= -> ->].
      exists tmo. apply elem_of_app. left. apply list_elem_of_here.
    + by apply elem_of_nil in Hin.
  - destruct (IH Hin) as [tmo Ht]. exists tmo. apply elem_of_app. by right.
Qed.

Lemma main_submits_parsed_ports (w : world) (a : args) (h : string) (p : Z) (tmo : float) :
  Submit h p tmo ∈ (main w a).2 ->
  h = host a /\ host a ∈ ALLOWED_HOSTS
  /\ exists port_list, parse_ports (ports a) = inr port_list /\ p ∈ port_list.
Proof.
  destruct (decide (host a ∈ ALLOWED_HOSTS)) as [Hh|Hh].
  2:{ rewrite (main_refused w a Hh). cbn. by intros [=]%list_elem_of_singleton. }
  destruct (parse_ports (ports a)) as [e|port_list] eqn:Hp.
  { rewrite (main_bad_spec w a e Hh Hp). cbn. by intros [=]%list_elem_of_singleton. }
  destruct (Z.leb_spec (workers a) 0) as [Hw|Hw].
  { rewrite (main_no_pool w a port_list Hh Hp Hw). cbn.
    by intros [=]%list_elem_of_singleton. }
  destruct (is_duration (delay a)) eqn:Hd.
  { rewrite (main_run w a port_list Hh Hp Hw Hd). cbn [snd].
    intros [[=]|Hin]%elem_of_cons.
    apply elem_of_app in Hin as [Hin|Hin].
    - apply list_elem_of_bind in Hin as (port & Hin & Hport).
      apply elem_of_cons in Hin as [[= -> -> ->]|Hin].
      + split; [done |]. split; [done |]. by exists port_list.
      + by apply list_elem_of_singleton in Hin.
    - apply elem_of_app in Hin as [Hin|Hin].
      + by apply list_elem_of_fmap in Hin as (r & [=] & _).
      + by apply list_elem_of_singleton in Hin. }
  destruct port_list as [|port rest].
  { rewrite (main_no_ports w a Hh Hp Hw). cbn.
    intros [[=]|Hin]%elem_of_cons. by apply list_elem_of_singleton in Hin. }
  destruct (time_sleep_rejects _ Hd) as (e & He & _).
  rewrite (main_impolite w a port rest e Hh Hp Hw He). cbn.
  intros [[=]|Hin]%elem_of_cons.
  apply list_elem_of_singleton in Hin as [= -> -> ->].
  split; [done |]. split; [done |]. exists (port :: rest).
  split; [done | apply list_elem_of_here].
Qed.

(** X10: in every run of [main], however it ends, a connection is only
    ever attempted to the host given on the command line, which is then one
    of the allowed hosts, and to a port that the port specification lists,
    between 1 and 65535. *)
Theorem connects_only_to_allowed_host_and_listed_ports
    (w : world) (a : args) (h : string) (p : Z) :
  (h, p) ∈ connect_attempts (network_io w (main w a).2) ->
  h = host a /\ h ∈ ALLOWED_HOSTS /\ union (ports a) p /\ 1 <= p <= 65535.
Proof.
  intros [tmo Hs]%connect_attempt_submitted.
  apply main_submits_parsed_ports in Hs as (-> & Hh & pl & Hp & Hin).
  split; [done |]. split; [done |].
  split; [by apply (parse_ports_elem_of (ports a) pl)
         | by apply (parse_ports_in_range (ports a) pl)].
Qed.

Lemma connects_only_to_allowed_host_and_listed_ports_witness :
  "127.0.0.1" = host (Scenarios.loopback "22")
  /\ "127.0.0.1" ∈ ALLOWED_HOSTS
  /\ union (ports (Scenarios.loopback "22")) 22 /\ 1 <= 22 <= 65535.
Proof.
  refine (connects_only_to_allowed_host_and_listed_ports Scenarios.silent
            (Scenarios.loopback "22") "127.0.0.1" 22 _).
  vm_compute. apply list_elem_of_here.
Defined.

(** X11: in a sweep that completes, with a timeout [settimeout] accepts
    and sockets that can be created, the connections attempted are one per
    port of the port list, each to the scanned host: as a collection they
    are the port list paired with the host, no port twice and none left out.
    The order in which the worker threads make the attempts is not fixed. *)
Theorem one_connect_per_port (w : world) (a : args) (port_list : list Z) :
  host a ∈ ALLOWED_HOSTS -> parse_ports (ports a) = inr port_list ->
  0 < workers a -> is_duration (delay a) = true ->
  is_duration (timeout a) = true ->
  (forall p, p ∈ port_list -> socket_new w (host a) p = None) ->
  connect_attempts (network_io w (main w a).2)
  ≡ₚ (fun p => (host a, p)) <$> port_list.
Proof.
  intros Hh Hp Hw Hd Ht Hnew. rewrite (main_network_io w a port_list) by done.
  clear Hp. induction port_list as [|port rest IH]; [done |].
  cbn [mbind list_bind]. unfold connect_attempts in *.
  rewrite omap_app, IH by (intros p ?; apply Hnew; by apply elem_of_cons; right).
  rewrite scan_port_trace, Hnew, Ht by apply list_elem_of_here. done.
Qed.

Lemma one_connect_per_port_witness :
  connect_attempts
    (network_io (Scenarios.transport [81] [1%nat])
       (main (Scenarios.transport [81] [1%nat]) (Scenarios.loopback "81,80")).2)
  ≡ₚ [("127.0.0.1", 80); ("127.0.0.1", 81)].
Proof.
  refine (one_connect_per_port (Scenarios.transport [81] [1%nat])
            (Scenarios.loopback "81,80") [80; 81] _ _ _ _ _ _).
  - by vm_compute.
  - vm_compute. reflexivity.
  - reflexivity.
  - reflexivity.
  - reflexivity.
  - reflexivity.
Defined.

Lemma connects_rejected_timeout (w : world) (h : string) (port : Z) (tmo : float) :
  is_duration tmo = false -> connects w h port tmo = false.
Proof.
  intros Ht. unfold connects. rewrite Ht.
  by destruct (socket_new w h port), (connect_ex w h port) as [|[| |]],
    (socket_close w h port).
Qed.

Lemma opened_nil (w : world) (a : args) (port_list : list Z) :
  opened w a port_list = [] <->
  forall p, p ∈ port_list -> connects w (host a) p (timeout a) = false.
Proof.
  split.
  - intros Ho p Hin. destruct (connects w (host a) p (timeout a)) eqn:Hc; [| done].
    assert (Hp : p ∈ opened w a port_list).
    { rewrite opened_Permutation. by apply list_elem_of_filter. }
    rewrite Ho in Hp. by apply elem_of_nil in Hp.
  - intros Hall. apply Permutation_nil_r. rewrite opened_Permutation.
    induction port_list as [|p rest IH]; [done |].
    rewrite filter_cons_False.
    + apply IH. intros q ?. apply Hall. by apply elem_of_cons; right.
    + rewrite Hall by apply list_elem_of_here. done.
Qed.

(** X12: with a [--timeout] that [settimeout] rejects (a negative one, one
    that is not a number, or one too large for a timestamp) the sweep still
    completes with exit status 0, but no connection is attempted at all:
    every probe fails at [settimeout], every port is logged as closed and
    the summary shows [None]. *)
Theorem negative_timeout_reports_all_closed
    (w : world) (a : args) (port_list : list Z) :
  host a ∈ ALLOWED_HOSTS -> parse_ports (ports a) = inr port_list ->
  0 < workers a -> is_duration (delay a) = true ->
  is_duration (timeout a) = false ->
  exit_status (main w a).1 = 0
  /\ connect_attempts (network_io w (main w a).2) = []
  /\ Forall (fun r => r.2 = false) (probe_results (main w a).2)
  /\ summary (main w a).2 = Some (inr "None").
Proof.
  intros Hh Hp Hw Hd Ht.
  assert (Ho : opened w a port_list = []).
  { apply opened_nil. intros p _. by apply connects_rejected_timeout. }
  split; [by rewrite (main_outcome w a port_list) |].
  split; [| split].
  - rewrite (main_network_io w a port_list) by done.
    clear Hp Ho. induction port_list as [|port rest IH]; [done |].
    cbn [mbind list_bind]. unfold connect_attempts in *. rewrite omap_app, IH.
    rewrite scan_port_trace, Ht. by destruct (socket_new w (host a) port).
  - rewrite (main_probe_results w a port_list) by done.
    rewrite completed_Permutation. apply Forall_fmap, Forall_forall.
    intros p _. by apply connects_rejected_timeout.
  - rewrite (main_summary w a port_list) by done. by rewrite Ho.
Qed.

Lemma negative_timeout_reports_all_closed_witness :
  summary (main (Scenarios.transport [] [])
             {| host := "localhost"; ports := "22,80"; workers := 10;
                timeout := - 1 # 1; delay := 0%Q |}).2 = Some (inr "None").
Proof.
  refine (proj2 (proj2 (proj2 (negative_timeout_reports_all_closed
            (Scenarios.transport [] [])
            {| host := "localhost"; ports := "22,80"; workers := 10;
               timeout := - 1 # 1; delay := 0%Q |} [22; 80] _ _ _ _ _)))).
  - by vm_compute.
  - vm_compute. reflexivity.
  - reflexivity.
  - reflexivity.
  - reflexivity.
Defined.

(** X13: the summary of a completed sweep shows [None] exactly when no port
    of the port list connects; otherwise it shows the non-empty list of open
    ports. *)
Theorem summary_none_iff_nothing_open (w : world) (a : args) (port_list : list Z) :
  host a ∈ ALLOWED_HOSTS -> parse_ports (ports a) = inr port_list ->
  0 < workers a -> is_duration (delay a) = true ->
  (summary (main w a).2 = Some (inr "None") <->
   forall p, p ∈ port_list -> connects w (host a) p (timeout a) = false)
  /\ (forall open_ports, summary (main w a).2 = Some (inl open_ports) ->
        open_ports <> [] /\ open_ports = opened w a port_list).
Proof.
  intros Hh Hp Hw Hd. rewrite (main_summary w a port_list) by done.
  rewrite <- opened_nil. unfold shown. split.
  - destruct (opened w a port_list); split; done.
  - intros open_ports. destruct (opened w a port_list); [done |].
    intros [= <-]. done.
Qed.

Lemma summary_none_iff_nothing_open_witness :
  summary (main Scenarios.silent (Scenarios.loopback "22,80")).2 = Some (inr "None").
Proof.
  refine (proj2 (proj1 (summary_none_iff_nothing_open Scenarios.silent
                          (Scenarios.loopback "22,80") [22; 80] _ _ _ _)) _).
  - by vm_compute.
  - vm_compute. reflexivity.
  - reflexivity.
  - reflexivity.
  - intros p _. reflexivity.
Defined.

Lemma same_transport_connects (w1 w2 : world) (h : string) (port : Z) (tmo : float) :
  same_transport w1 w2 -> connects w1 h port tmo = connects w2 h port tmo.
Proof. intros (Hn & Hc & Hcl). unfold connects. by rewrite Hn, Hc, Hcl. Qed.

(** X14: sweeping twice over a transport that behaves the same gives the
    same probe results and the same open ports, up to the order in which
    [as_completed] yields the probes. *)
Theorem sweep_repeatable (w1 w2 : world) (a : args) (port_list : list Z) :
  host a ∈ ALLOWED_HOSTS -> parse_ports (ports a) = inr port_list ->
  0 < workers a -> is_duration (delay a) = true ->
  same_transport w1 w2 ->
  probe_results (main w1 a).2 ≡ₚ probe_results (main w2 a).2
  /\ opened w1 a port_list ≡ₚ opened w2 a port_list
  /\ pacing (main w1 a).2 = pacing (main w2 a).2.
Proof.
  intros Hh Hp Hw Hd Hsame.
  rewrite !(main_probe_results _ a port_list), !(main_pacing _ a port_list) by done.
  rewrite !completed_Permutation, !opened_Permutation.
  assert (Hc : forall p, connects w1 (host a) p (timeout a)
                         = connects w2 (host a) p (timeout a))
    by (intros p; by apply same_transport_connects).
  split; [| split; [| done]].
  - assert (E : (fun p => (p, connects w1 (host a) p (timeout a))) <$> port_list
               = (fun p => (p, connects w2 (host a) p (timeout a))) <$> port_list)
      by (apply list_fmap_ext; intros _ p _; by rewrite Hc).
    by rewrite E.
  - rewrite (list_filter_iff _ (fun p => connects w2 (host a) p (timeout a) = true));
      [done |]. intros p. by rewrite Hc.
Qed.

Lemma sweep_repeatable_witness :
  opened (Scenarios.transport [81] [2%nat]) (Scenarios.loopback "22,80,81") [22; 80; 81]
  ≡ₚ opened (Scenarios.transport [81] [1%nat; 1%nat]) (Scenarios.loopback "22,80,81")
       [22; 80; 81].
Proof.
  refine (proj1 (proj2 (sweep_repeatable
            (Scenarios.transport [81] [2%nat])
            (Scenarios.transport [81] [1%nat; 1%nat])
            (Scenarios.loopback "22,80,81") [22; 80; 81] _ _ _ _ _))).
  - by vm_compute.
  - vm_compute. reflexivity.
  - reflexivity.
  - reflexivity.
  - repeat split.
Defined.

End ScannerMore.

(** ** More on the client: what a session sends and how it ends *)
Section ClientMore.
Import Py theClient Session.

Lemma sends_app (t1 t2 : list event) : sends (t1 ++ t2) = sends t1 ++ sends t2.
Proof. apply omap_app. Qed.

(** A turn sends nothing, or the stripped text of a line that is a
    message. *)
Lemma turn_sends (k : key_event) (x : exchange) :
  sends (turn k x).2 =
    match k with
    | Line text =>
        if negb (truthy (strip text)) then []
        else if is_keyword (strip text) then []
        else [encode (strip text)]
    | _ => []
    end.
Proof.
  destruct k as [text| |]; [| done | done].
  destruct (truthy (strip text)) eqn:Ht; cbn [negb].
  - apply truthy_nonempty in Ht. destruct (is_keyword (strip text)) eqn:Hk.
    + by rewrite turn_keyword.
    + by apply turn_message_sends.
  - rewrite turn_blank; [done |]. by destruct (strip text).
Qed.

Lemma client_loop_sends_prefix (w : world) (keys : list key_event) (n : nat) :
  sends (client_loop w keys n).2 `prefix_of` expected_sends keys.
Proof.
  revert n. induction keys as [|k keys IH]; intros n; [by exists [] |].
  cbn [client_loop].
  pose proof (turn_sends k (peer w n)) as Hs.
  destruct (turn k (peer w n)) as [[e|[|]] t] eqn:Ht; cbn [snd fst] in *.
  - destruct k as [text| |]; cbn [expected_sends]; rewrite Hs;
      try apply prefix_nil.
    destruct (negb _); [apply prefix_nil |].
    destruct (is_keyword _); [apply prefix_nil |]. by apply prefix_cons, prefix_nil.
  - destruct k as [text| |]; cbn [expected_sends]; rewrite Hs;
      try apply prefix_nil.
    destruct (negb _); [apply prefix_nil |].
    destruct (is_keyword _); [apply prefix_nil |]. by apply prefix_cons, prefix_nil.
  - specialize (IH (n + length (sends t))%nat).
    destruct (client_loop w keys _) as [r t']. cbn [snd] in *.
    rewrite sends_app, Hs.
    destruct k as [text| |]; cbn [expected_sends];
      [| by rewrite turn_end_of_input in Ht by auto ..].
    destruct (truthy (strip text)) eqn:Htr; cbn [negb]; [| done].
    destruct (is_keyword _) eqn:Hk; [| by apply prefix_cons].
    (* a keyword ends the loop: this turn cannot continue *)
    apply truthy_nonempty in Htr. by rewrite turn_keyword in Ht.
Qed.

Lemma expected_sends_are_messages (keys : list key_event) (d : list Z) :
  d ∈ expected_sends keys ->
  exists text, Line text ∈ keys /\ d = encode (strip text)
               /\ strip text <> "" /\ is_keyword (strip text) = false.
Proof.
  induction keys as [|k keys IH]; [by intros ?%elem_of_nil |].
  destruct k as [text| |]; cbn [expected_sends];
    [| by intros ?%elem_of_nil ..].
  destruct (truthy (strip text)) eqn:Ht; cbn [negb].
  - destruct (is_keyword (strip text)) eqn:Hk; [by intros ?%elem_of_nil |].
    intros [->|Hin]%elem_of_cons.
    + exists text. split; [apply list_elem_of_here |].
      split; [done |]. split; [by apply truthy_nonempty | done].
    + destruct (IH Hin) as (t & ? & ?). exists t.
      split; [by apply elem_of_cons; right | done].
  - intros Hin. destruct (IH Hin) as (t & ? & ?). exists t.
    split; [by apply elem_of_cons; right | done].
Qed.

(** The whole trace of a session, by whether the connection is made. *)
Lemma interactive_client_refused (w : world) (server : string * Z) (tmo : Q) (e : exn) :
  connection_raises w = Some e ->
  interactive_client w server tmo =
    (if is_Exception e then inr tt else inl e,
     [Log (Attempting server); Connect server tmo] ++ epilogue (inl e)).
Proof.
  intros Hc. unfold interactive_client, with_connection. rewrite Hc. cbn.
  destruct e; done.
Qed.

Lemma interactive_client_connected (w : world) (server : string * Z) (tmo : Q) :
  connection_raises w = None ->
  interactive_client w server tmo =
    (match (client_loop w (keyboard w) 0).1 with
     | inl e => if is_Exception e then inr tt else inl e
     | inr _ => inr tt
     end,
     [Log (Attempting server); Connect server tmo; Log (Connected server);
      SetTimeoutNone]
     ++ (client_loop w (keyboard w) 0).2 ++ [Close]
     ++ epilogue (client_loop w (keyboard w) 0).1).
Proof.
  intros Hc. unfold interactive_client, with_connection. rewrite Hc.
  destruct (client_loop w (keyboard w) 0) as [[e|[]] t]; cbn.
  - destruct e; cbn; by rewrite ?app_nil_r, <- ?app_assoc.
  - done.
Qed.

(** X15: whatever the server does, the messages a session sends are, in
    order, an initial part of the stripped non-blank lines the user typed
    before the first keyword; each is the UTF-8 encoding of a stripped,
    non-empty line that is not a keyword, and nothing is sent when the
    connection cannot be made. *)
Theorem client_sends_only_typed_messages (w : world) (server : string * Z) (tmo : Q) :
  sends (interactive_client w server tmo).2 `prefix_of` expected_sends (keyboard w)
  /\ (forall d, d ∈ sends (interactive_client w server tmo).2 ->
        exists text, Line text ∈ keyboard w /\ d = encode (strip text)
                     /\ strip text <> "" /\ is_keyword (strip text) = false)
  /\ (connection_raises w <> None -> sends (interactive_client w server tmo).2 = []).
Proof.
  assert (Hp : sends (interactive_client w server tmo).2
               `prefix_of` expected_sends (keyboard w)).
  { destruct (connection_raises w) as [e|] eqn:Hc.
    - rewrite (interactive_client_refused w server tmo e Hc). cbn.
      destruct (is_Exception e); apply prefix_nil.
    - rewrite (interactive_client_connected w server tmo Hc). cbn [snd].
      change ([?a; ?b; ?c; ?d] ++ ?t) with (a :: b :: c :: d :: t).
      cbn [sends omap list_omap]. fold (sends ((client_loop w (keyboard w) 0).2
        ++ [Close] ++ epilogue (client_loop w (keyboard w) 0).1)).
      rewrite sends_app.
      assert (Hnil : sends ([Close] ++ epilogue (client_loop w (keyboard w) 0).1) = []).
      { destruct (client_loop w (keyboard w) 0).1 as [e|]; [| done].
        cbn. by destruct (is_Exception e). }
      rewrite Hnil, app_nil_r. apply client_loop_sends_prefix. }
  split; [done |]. split.
  - intros d Hd. apply expected_sends_are_messages.
    destruct Hp as [k ->]. apply elem_of_app. by left.
  - intros Hc. destruct (connection_raises w) as [e|] eqn:He; [| done].
    rewrite (interactive_client_refused w server tmo e He). cbn.
    by destruct (is_Exception e).
Qed.

Lemma client_sends_only_typed_messages_witness :
  sends (interactive_client
           {| connection_raises := Some ConnectionRefusedError;
              keyboard := [Line "hello"];
              peer := fun _ => {| sendall_raises := None; recv_gives := inr [79] |} |}
           ("127.0.0.1", 9000) 5).2 = [].
Proof.
  refine (proj2 (proj2 (client_sends_only_typed_messages _ _ _)) _).
  simpl. discriminate.
Defined.

(** X16: when the connection cannot be made, the client neither reads the
    keyboard nor touches a socket: it logs the attempt and then the failure
    (refused, timed out, or the unexpected error) and returns normally. *)
Theorem client_connection_failure (w : world) (server : string * Z) (tmo : Q) (e : exn) :
  connection_raises w = Some e -> is_Exception e = true ->
  interactive_client w server tmo =
    (inr tt, [Log (Attempting server); Connect server tmo; Log (failure_log e)])
  /\ failure_log ConnectionRefusedError = ConnectionRefused
  /\ failure_log socket_timeout = ConnectionTimedOut
  /\ (e <> ConnectionRefusedError -> e <> socket_timeout ->
      failure_log e = UnexpectedError e).
Proof.
  intros Hc He. rewrite (interactive_client_refused w server tmo e Hc).
  cbn. rewrite He. repeat split. by destruct e.
Qed.

Lemma client_connection_failure_witness :
  interactive_client
    {| connection_raises := Some ConnectionRefusedError;
       keyboard := [Line "hello"];
       peer := fun _ => {| sendall_raises := None; recv_gives := inr [79] |} |}
    ("127.0.0.1", 9000) 5
  = (inr tt, [Log (Attempting ("127.0.0.1", 9000)); Connect ("127.0.0.1", 9000) 5;
              Log ConnectionRefused]).
Proof.
  refine (proj1 (client_connection_failure _ ("127.0.0.1", 9000) 5
                   ConnectionRefusedError _ _)); reflexivity.
Defined.

(** The events of the loop are reads of the keyboard, sends, receives and
    log lines. *)
Lemma turn_events (k : key_event) (x : exchange) :
  Forall (fun ev => ev <> Close /\ ev <> SetTimeoutNone) (turn k x).2.
Proof.
  destruct k as [text| |]; [| by repeat constructor ..].
  destruct (truthy (strip text)) eqn:Ht.
  - apply truthy_nonempty in Ht. destruct (is_keyword (strip text)) eqn:Hk.
    + rewrite turn_keyword by done. by repeat constructor.
    + rewrite turn_message by done.
      destruct (sendall_raises x) as [e|].
      * destruct (is_BrokenPipeError e); by repeat constructor.
      * destruct (recv_gives x) as [e|[|b data]]; try by repeat constructor.
        destruct (is_socket_timeout e); by repeat constructor.
  - rewrite turn_blank by (by destruct (strip text)). by repeat constructor.
Qed.

Lemma client_loop_events (w : world) (keys : list key_event) (n : nat) :
  Forall (fun ev => ev <> Close /\ ev <> SetTimeoutNone) (client_loop w keys n).2.
Proof.
  revert n. induction keys as [|k keys IH]; intros n; [by repeat constructor |].
  cbn [client_loop]. pose proof (turn_events k (peer w n)) as Ht.
  destruct (turn k (peer w n)) as [[e|[|]] t]; cbn [snd] in *; try done.
  specialize (IH (n + length (sends t))%nat).
  destruct (client_loop w keys _) as [r t']. cbn [snd] in *.
  by apply Forall_app.
Qed.

(** X17: once the connection is made, the session always ends with the
    socket closed, exactly once and after every other socket call, whatever
    the user types and whatever the server does; no exception of class
    [Exception] leaves [interactive_client]. *)
Theorem client_closes_socket_once (w : world) (server : string * Z) (tmo : Q) :
  connection_raises w = None ->
  (exists body tail,
     (interactive_client w server tmo).2 =
       [Log (Attempting server); Connect server tmo; Log (Connected server);
        SetTimeoutNone] ++ body ++ [Close] ++ tail
     /\ Forall (fun ev => ev <> Close /\ ev <> SetTimeoutNone) body
     /\ Forall (fun ev => is_socket_call ev = false) tail)
  /\ (forall e, (interactive_client w server tmo).1 = inl e -> is_Exception e = false).
Proof.
  intros Hc. rewrite (interactive_client_connected w server tmo Hc). split.
  - exists (client_loop w (keyboard w) 0).2, (epilogue (client_loop w (keyboard w) 0).1).
    split; [done |]. split; [apply client_loop_events |].
    destruct (client_loop w (keyboard w) 0).1 as [e|]; [| constructor].
    cbn. destruct (is_Exception e); by repeat constructor.
  - intros e. cbn [fst].
    destruct (client_loop w (keyboard w) 0).1 as [e'|]; [| done].
    destruct (is_Exception e') eqn:He; [done |]. by intros [= <-].
Qed.

Lemma client_closes_socket_once_witness :
  exists body tail,
    (interactive_client (Scenarios.typing [Line "hi"; Line "quit"])
       ("127.0.0.1", 9000) 5).2 =
      [Log (Attempting ("127.0.0.1", 9000)); Connect ("127.0.0.1", 9000) 5;
       Log (Connected ("127.0.0.1", 9000)); SetTimeoutNone]
      ++ body ++ [Close] ++ tail
    /\ Forall (fun ev => ev <> Close /\ ev <> SetTimeoutNone) body
    /\ Forall (fun ev => is_socket_call ev = false) tail.
Proof.
  refine (proj1 (client_closes_socket_once
                   (Scenarios.typing [Line "hi"; Line "quit"])
                   ("127.0.0.1", 9000) 5 _)).
  reflexivity.
Defined.

Lemma client_loop_stops_at_close (w : world) (keys : list key_event) (n m : nat) :
  sendall_raises (peer w n) = None -> recv_gives (peer w n) = inr [] ->
  (m <= n)%nat ->
  (length (sends (client_loop w keys m).2) + m <= n + 1)%nat.
Proof.
  intros Hsend Hrecv. revert m. induction keys as [|k keys IH]; intros m Hm;
    [cbn; lia |].
  cbn [client_loop]. pose proof (turn_sends k (peer w m)) as Hs.
  assert (Hlen : (length (sends (turn k (peer w m)).2) <= 1)%nat).
  { rewrite Hs. destruct k as [text| |]; cbn; try lia.
    destruct (negb _); cbn; [lia |]. destruct (is_keyword _); cbn; lia. }
  destruct (turn k (peer w m)) as [[e|[|]] t] eqn:Ht; cbn [snd] in *; try lia.
  assert (Hok : (m + length (sends t) <= n)%nat).
  { destruct (decide (m = n)) as [->|]; [| lia].
    destruct k as [text| |]; cbn in Hs; try (rewrite Hs; cbn; lia).
    destruct (truthy (strip text)) eqn:Htr; cbn [negb] in Hs; [| rewrite Hs; cbn; lia].
    destruct (is_keyword (strip text)) eqn:Hk; [rewrite Hs; cbn; lia |].
    apply truthy_nonempty in Htr.
    rewrite turn_message, Hsend, Hrecv in Ht by done. done. }
  specialize (IH _ Hok).
  destruct (client_loop w keys _) as [r t']. cbn [snd] in *.
  rewrite sends_app, length_app. lia.
Qed.

(** X18: when the server closes the connection after the [n+1]-th message
    ([recv] returns no data), the session ends there: the client sends at
    most [n+1] messages, however many lines follow on the keyboard. *)
Theorem client_stops_when_server_closes
    (w : world) (server : string * Z) (tmo : Q) (n : nat) :
  sendall_raises (peer w n) = None -> recv_gives (peer w n) = inr [] ->
  (length (sends (interactive_client w server tmo).2) <= n + 1)%nat.
Proof.
  intros Hsend Hrecv.
  pose proof (client_loop_stops_at_close w (keyboard w) n 0 Hsend Hrecv) as Hl.
  destruct (connection_raises w) as [e|] eqn:Hc.
  - rewrite (interactive_client_refused w server tmo e Hc). cbn.
    destruct (is_Exception e); cbn; lia.
  - rewrite (interactive_client_connected w server tmo Hc). cbn [snd].
    change ([?a; ?b; ?c; ?d] ++ ?t) with (a :: b :: c :: d :: t).
    cbn [sends omap list_omap].
    fold (sends ((client_loop w (keyboard w) 0).2
                 ++ [Close] ++ epilogue (client_loop w (keyboard w) 0).1)).
    rewrite sends_app, length_app.
    assert (Hnil : sends ([Close] ++ epilogue (client_loop w (keyboard w) 0).1) = []).
    { destruct (client_loop w (keyboard w) 0).1 as [e|]; [| done].
      cbn. by destruct (is_Exception e). }
    rewrite Hnil. cbn [length]. lia.
Qed.

Lemma client_stops_when_server_closes_witness :
  le (length (sends (interactive_client
                       {| connection_raises := None;
                          keyboard := [Line "one"; Line "two"; Line "three"];
                          peer := fun _ => {| sendall_raises := None;
                                              recv_gives := inr [] |} |}
                       ("127.0.0.1", 9000) 5).2)) (0 + 1)%nat.
Proof.
  refine (client_stops_when_server_closes _ ("127.0.0.1", 9000) 5 0 _ _);
    reflexivity.
Defined.

End ClientMore.

(** ** The echo server: decoding, replies and the handler *)
Section Codec.
Import Py Codec.

Lemma decode_ascii (data : list Z) :
  Forall (fun b => b < 128) data -> decode data = data.
Proof.
  induction 1 as [|b data Hb _ IH]; [done |].
  cbn [decode]. destruct (Z.ltb_spec b 128); [by rewrite IH | lia].
Qed.

Lemma encode_ascii (text : list Z) :
  Forall (fun c => c < 128) text -> encode text = inr text.
Proof.
  induction 1 as [|c text Hc _ IH]; [done |].
  cbn [encode]. unfold encode_char.
  destruct (Z.ltb_spec c 128); [by rewrite IH | lia].
Qed.

Lemma encode_app (t1 t2 : list Z) (b1 b2 : list Z) :
  encode t1 = inr b1 -> encode t2 = inr b2 -> encode (t1 ++ t2) = inr (b1 ++ b2).
Proof.
  revert b1. induction t1 as [|c t1 IH]; intros b1; cbn [encode app].
  - by intros [= <-].
  - destruct (encode_char c) as [bytes|]; [| done].
    destruct (encode t1) as [|rest]; [done |].
    intros [= <-] H2. rewrite (IH rest) by done. by rewrite app_assoc.
Qed.

Lemma encode_total (text : list Z) :
  Forall (fun c => is_surrogate c = false) text -> exists bytes, encode text = inr bytes.
Proof.
  induction 1 as [|c text Hc _ [rest IH]]; [by exists [] |].
  cbn [encode]. unfold encode_char. rewrite Hc, IH.
  destruct (c <? 128), (c <? 2048), (c <? 65536); eauto.
Qed.

Lemma rstrip_Forall (P : Z -> Prop) (text : list Z) :
  Forall P text -> Forall P (rstrip text).
Proof.
  induction 1 as [|c text Hc _ IH]; [done |]. cbn [rstrip].
  destruct (rstrip text) as [|c' r].
  - destruct (isspace c); by repeat constructor.
  - by constructor.
Qed.

Lemma is_continuation_range (b : Z) : is_continuation b = true -> 128 <= b <= 191.
Proof. unfold is_continuation. intros [?%Z.leb_le ?%Z.leb_le]%andb_true_iff. lia. Qed.

Lemma second_of_three_range (b0 b1 : Z) :
  second_of_three b0 b1 = true ->
  128 <= b1 <= 191 /\ (b0 = 224 -> 160 <= b1) /\ (b0 = 237 -> b1 <= 159).
Proof.
  unfold second_of_three.
  destruct (Z.eqb_spec b0 224); [| destruct (Z.eqb_spec b0 237)].
  - intros [?%Z.leb_le ?%Z.leb_le]%andb_true_iff. lia.
  - intros [?%Z.leb_le ?%Z.leb_le]%andb_true_iff. lia.
  - intros ?%is_continuation_range. lia.
Qed.

Lemma second_of_four_range (b0 b1 : Z) :
  second_of_four b0 b1 = true ->
  128 <= b1 <= 191 /\ (b0 = 240 -> 144 <= b1) /\ (b0 = 244 -> b1 <= 143).
Proof.
  unfold second_of_four.
  destruct (Z.eqb_spec b0 240); [| destruct (Z.eqb_spec b0 244)].
  - intros [?%Z.leb_le ?%Z.leb_le]%andb_true_iff. lia.
  - intros [?%Z.leb_le ?%Z.leb_le]%andb_true_iff. lia.
  - intros ?%is_continuation_range. lia.
Qed.

Lemma not_surrogate (c : Z) : c < 55296 \/ 57343 < c -> is_surrogate c = false.
Proof.
  unfold is_surrogate. intros [?|?].
  - destruct (Z.leb_spec 55296 c); [lia | done].
  - destruct (Z.leb_spec c 57343); [lia |]. by rewrite andb_false_r.
Qed.

(** Decoding with replacement never yields a surrogate. *)
Lemma decode_no_surrogate_bounded (n : nat) (data : list Z) :
  (length data <= n)%nat -> Forall (fun c => is_surrogate c = false) (decode data).
Proof.
  revert data. induction n as [|n IH]; intros data Hn.
  { destruct data; [constructor | cbn in Hn; lia]. }
  assert (Hrep : is_surrogate replacement = false) by done.
  destruct data as [|b0 r0]; [constructor |]. cbn [decode length] in *.
  assert (IH0 : Forall (fun c => is_surrogate c = false) (decode r0))
    by (apply IH; lia).
  destruct (Z.ltb_spec b0 128).
  { constructor; [| done]. apply not_surrogate. lia. }
  destruct ((b0 <? 194) || (244 <? b0)) eqn:Hlead; [by constructor |].
  apply orb_false_iff in Hlead as [?%Z.ltb_ge ?%Z.ltb_ge].
  destruct (Z.ltb_spec b0 224).
  { destruct r0 as [|b1 r1]; [by repeat constructor |].
    destruct (is_continuation b1) eqn:Hc1; [| by constructor].
    apply is_continuation_range in Hc1.
    constructor; [apply not_surrogate; lia |]. apply IH. cbn in Hn. lia. }
  destruct (Z.ltb_spec b0 240).
  { destruct r0 as [|b1 r1]; [by repeat constructor |].
    destruct (second_of_three b0 b1) eqn:Hc1; [| by constructor].
    apply second_of_three_range in Hc1 as (? & ? & ?).
    destruct r1 as [|b2 r2]; [by repeat constructor |].
    assert (IH1 : Forall (fun c => is_surrogate c = false) (decode (b2 :: r2)))
      by (apply IH; cbn in Hn |- *; lia).
    destruct (is_continuation b2) eqn:Hc2; [| by constructor].
    apply is_continuation_range in Hc2.
    constructor; [| apply IH; cbn in Hn; lia].
    apply not_surrogate. destruct (decide (b0 <= 236)); [left; lia |].
    destruct (decide (b0 = 237)); [left; lia | right; lia]. }
  destruct r0 as [|b1 r1]; [by repeat constructor |].
  destruct (second_of_four b0 b1) eqn:Hc1; [| by constructor].
  apply second_of_four_range in Hc1 as (? & ? & ?).
  destruct r1 as [|b2 r2]; [by repeat constructor |].
  assert (IH1 : Forall (fun c => is_surrogate c = false) (decode (b2 :: r2)))
    by (apply IH; cbn in Hn |- *; lia).
  destruct (is_continuation b2) eqn:Hc2; [| by constructor].
  apply is_continuation_range in Hc2.
  destruct r2 as [|b3 r3]; [by repeat constructor |].
  assert (IH2 : Forall (fun c => is_surrogate c = false) (decode (b3 :: r3)))
    by (apply IH; cbn in Hn |- *; lia).
  destruct (is_continuation b3) eqn:Hc3; [| by constructor].
  apply is_continuation_range in Hc3.
  constructor; [| apply IH; cbn in Hn; lia].
  apply not_surrogate. right. destruct (decide (b0 = 240)); lia.
Qed.

Lemma decode_no_surrogate (data : list Z) :
  Forall (fun c => is_surrogate c = false) (decode data).
Proof. by apply (decode_no_surrogate_bounded (length data)). Qed.

End Codec.

Section Handler.
Import Py theServer Serving.

Lemma reply_encodes (data : list Z) :
  exists bytes, Codec.encode (reply_text (text_of data)) = inr bytes.
Proof.
  apply encode_total. unfold reply_text, text_of.
  apply Forall_app. split; [by repeat constructor |].
  apply Forall_app. split; [| by repeat constructor].
  apply rstrip_Forall, decode_no_surrogate.
Qed.

Lemma replies_app (t1 t2 : list event) : replies (t1 ++ t2) = replies t1 ++ replies t2.
Proof. apply omap_app. Qed.

(** One turn of the loop on a chunk of data. *)
Lemma handle_loop_data (c : connection) (addr : address) (b : Z) (data : list Z)
    (rest : list (result (list Z))) (n : nat) (bytes : list Z) :
  Codec.encode (reply_text (text_of (b :: data))) = inr bytes ->
  handle_loop c addr (inr (b :: data) :: rest) n =
    match sendall_raises c n with
    | Some e =>
        (if is_BrokenPipeError e then inr tt else inl e,
         [Recv 2048; Log (ReceivedFrom addr (text_of (b :: data))); SendAll bytes]
         ++ (if is_BrokenPipeError e then [Log (BrokenPipeSending addr)] else []))
    | None =>
        ((handle_loop c addr rest (S n)).1,
         [Recv 2048; Log (ReceivedFrom addr (text_of (b :: data))); SendAll bytes]
         ++ (handle_loop c addr rest (S n)).2)
    end.
Proof.
  intros He. cbn [handle_loop]. rewrite He.
  destruct (sendall_raises c n) as [e|].
  - by destruct (is_BrokenPipeError e).
  - by destruct (handle_loop c addr rest (S n)).
Qed.



Lemma handle_loop_events (c : connection) (addr : address)
    (rs : list (result (list Z))) (n : nat) :
  Forall (fun ev => ev <> ConnClose /\ ev <> Log (HandlerFinished addr))
    (handle_loop c addr rs n).2.
Proof.
  revert n. induction rs as [|r rs IH]; intros n; [by repeat constructor |].
  destruct r as [e|[|b data]].
  - cbn. destruct (is_ConnectionResetError e); by repeat constructor.
  - by repeat constructor.
  - destruct (reply_encodes (b :: data)) as [bytes Hb].
    pose proof (handle_loop_data c addr b data rs n bytes Hb) as Hd.
    unfold result in *. rewrite Hd. clear Hd.
    destruct (sendall_raises c n) as [e|]; cbn [snd].
    + destruct (is_BrokenPipeError e); by repeat constructor.
    + repeat (constructor; [done |]). apply IH.
Qed.

(** The whole trace of a handler. *)
Lemma handle_client_run (c : connection) (addr : address) :
  handle_client c addr =
    (match (handle_loop c addr (recvs c) 0).1 with
     | inl e => if is_Exception e then inr tt else inl e
     | inr _ => inr tt
     end,
     [Log (ClientConnected addr); ConnSetTimeoutNone]
     ++ (handle_loop c addr (recvs c) 0).2 ++ [ConnClose]
     ++ match (handle_loop c addr (recvs c) 0).1 with
        | inl e => if is_Exception e then [Log (HandlerException addr e)] else []
        | inr _ => []
        end
     ++ [Log (HandlerFinished addr)]).
Proof.
  unfold handle_client, with_conn.
  destruct (handle_loop c addr (recvs c) 0) as [[e|[]] t]; cbn.
  - destruct (is_Exception e); cbn; by rewrite <- ?app_assoc.
  - by rewrite <- app_assoc.
Qed.

Lemma handle_client_replies (c : connection) (addr : address) :
  replies (handle_client c addr).2 = replies (handle_loop c addr (recvs c) 0).2.
Proof.
  rewrite handle_client_run. cbn [snd].
  rewrite !replies_app. cbn.
  destruct (handle_loop c addr (recvs c) 0).1 as [e|]; cbn;
    [destruct (is_Exception e) |]; cbn; by rewrite app_nil_r.
Qed.

(** X19: a handler always cleans up: whatever the client sends and whatever
    the socket raises, the connection is closed exactly once, after the last
    socket call, and the last line logged is that the handler finished; no
    exception of class [Exception] leaves [handle_client]. *)
Theorem handle_client_always_finishes (c : connection) (addr : address) :
  (exists body tail,
     (handle_client c addr).2 =
       [Log (ClientConnected addr); ConnSetTimeoutNone] ++ body ++ [ConnClose]
       ++ tail ++ [Log (HandlerFinished addr)]
     /\ Forall (fun ev => ev <> ConnClose /\ ev <> Log (HandlerFinished addr)) body
     /\ (tail = [] \/ exists e, tail = [Log (HandlerException addr e)]))
  /\ (forall e, (handle_client c addr).1 = inl e -> is_Exception e = false).
Proof.
  rewrite handle_client_run. split.
  - eexists _, _. split; [reflexivity |]. split; [apply handle_loop_events |].
    destruct (handle_loop c addr (recvs c) 0).1 as [e|]; [| by left].
    destruct (is_Exception e); [right; by exists e | by left].
  - intros e. cbn [fst].
    destruct (handle_loop c addr (recvs c) 0).1 as [e'|]; [| done].
    destruct (is_Exception e') eqn:He; [done |]. by intros [= <-].
Qed.

Lemma handle_client_always_finishes_witness :
  (handle_client {| recvs := [inr [104; 105]; inl KeyboardInterrupt];
                    sendall_raises := fun _ => None |}
     ("127.0.0.1", 50000)).1 = inl KeyboardInterrupt
  /\ is_Exception KeyboardInterrupt = false.
Proof.
  assert (Hr : (handle_client {| recvs := [inr [104; 105]; inl KeyboardInterrupt];
                                 sendall_raises := fun _ => None |}
                  ("127.0.0.1", 50000)).1 = inl KeyboardInterrupt)
    by (vm_compute; reflexivity).
  split; [exact Hr |].
  exact (proj2 (handle_client_always_finishes _ _) KeyboardInterrupt Hr).
Defined.



Lemma rstrip_unchanged (text : list Z) :
  (forall c, last text = Some c -> Codec.isspace c = false) ->
  Codec.rstrip text = text.
Proof.
  induction text as [|c text IH]; [done |]. intros Hl. cbn [Codec.rstrip].
  destruct text as [|c' text'].
  - cbn. by rewrite (Hl c).
  - rewrite IH by (intros x Hx; apply Hl; by rewrite last_cons, Hx).
    done.
Qed.

(** X21: a chunk of ASCII bytes is echoed back unchanged apart from white
    space at its end: the reply is [Server: received '], the chunk stripped
    on the right, then ['] and a newline; a chunk that does not end in white
    space comes back whole. *)
Theorem ascii_chunk_is_echoed (b : Z) (data : list Z) (addr : address) :
  Forall (fun x => 0 <= x < 128) (b :: data) ->
  replies (handle_client (session [b :: data]) addr).2 =
    [Codec.code_points "Server: received '" ++ Codec.rstrip (b :: data)
     ++ [39; 10]]
  /\ ((forall x, last (b :: data) = Some x -> Codec.isspace x = false) ->
      replies (handle_client (session [b :: data]) addr).2 =
        [Codec.code_points "Server: received '" ++ (b :: data) ++ [39; 10]]).
Proof.
  intros Hascii.
  assert (Hr : replies (handle_client (session [b :: data]) addr).2 =
               [Codec.code_points "Server: received '" ++ Codec.rstrip (b :: data)
                ++ [39; 10]]).
  { assert (Hlt : Forall (fun x => x < 128) (b :: data))
      by (eapply Forall_impl; [exact Hascii | intros x; cbn; lia]).
    assert (He : Codec.encode (reply_text (text_of (b :: data))) =
                 inr (Codec.code_points "Server: received '"
                      ++ Codec.rstrip (b :: data) ++ [39; 10])).
    { unfold text_of. rewrite (decode_ascii _ Hlt).
      apply encode_ascii. unfold reply_text.
      apply Forall_app. split; [by repeat constructor |].
      apply Forall_app. split; [by apply rstrip_Forall | by repeat constructor]. }
    rewrite handle_client_replies. cbn [session recvs fmap list_fmap].
    rewrite (handle_loop_data _ addr b data [] 0 _ He). cbn [sendall_raises session].
    cbn. done. }
  split; [done |]. intros Hl. by rewrite Hr, (rstrip_unchanged _ Hl).
Qed.

Lemma ascii_chunk_is_echoed_witness :
  replies (handle_client (session [[112; 105; 110; 103]]) ("127.0.0.1", 50000)).2 =
    [Codec.code_points "Server: received '" ++ [112; 105; 110; 103] ++ [39; 10]].
Proof.
  refine (proj2 (ascii_chunk_is_echoed 112 [105; 110; 103] ("127.0.0.1", 50000) _) _).
  - repeat constructor; lia.
  - intros x [= <-]. reflexivity.
Defined.

End Handler.

(** ** The client's messages as the server reads them *)
Section Echo.
Import Py Codec.

Ltac each_char c := destruct c as [[] [] [] [] [] [] [] []]; reflexivity.

Lemma encode_char_code_point (c : ascii) :
  encode_char (code_point c) = Some (Py.encode (String c EmptyString)).
Proof. each_char c. Qed.

Lemma decode_one_char (c : ascii) (rest : list Z) :
  decode (Py.encode (String c EmptyString) ++ rest) = code_point c :: decode rest.
Proof. each_char c. Qed.

Lemma isspace_code_point (c : ascii) : isspace (code_point c) = Py.isspace c.
Proof. each_char c. Qed.

Lemma py_encode_cons (c : ascii) (s : string) :
  Py.encode (String c s) = Py.encode (String c EmptyString) ++ Py.encode s.
Proof. cbn. by destruct (code_point c <? 128). Qed.

Lemma encode_code_points (s : string) : encode (code_points s) = inr (Py.encode s).
Proof.
  induction s as [|c s IH]; [done |].
  change (code_points (String c s)) with (code_point c :: code_points s).
  cbn [encode]. by rewrite encode_char_code_point, IH, (py_encode_cons c s).
Qed.

Lemma decode_py_encode (s : string) : decode (Py.encode s) = code_points s.
Proof.
  induction s as [|c s IH]; [done |].
  rewrite py_encode_cons, decode_one_char, IH. done.
Qed.

Lemma rstrip_code_points (s : string) :
  rstrip (code_points s) = code_points (Py.rstrip s).
Proof.
  induction s as [|c s IH]; [done |].
  change (code_points (String c s)) with (code_point c :: code_points s).
  cbn [rstrip Py.rstrip]. rewrite IH, isspace_code_point.
  destruct (Py.rstrip s); [by destruct (Py.isspace c) | done].
Qed.

Lemma py_rstrip_cons (c : ascii) (s : string) :
  Py.rstrip (String c s) =
    match Py.rstrip s with
    | EmptyString => if Py.isspace c then EmptyString else String c EmptyString
    | r => String c r
    end.
Proof. done. Qed.

Lemma py_rstrip_idempotent (s : string) : Py.rstrip (Py.rstrip s) = Py.rstrip s.
Proof.
  induction s as [|c s IH]; [done |]. rewrite py_rstrip_cons.
  destruct (Py.rstrip s) as [|c' r] eqn:Hr.
  - destruct (Py.isspace c) eqn:Hc; [done |]. by rewrite py_rstrip_cons, Hc.
  - by rewrite py_rstrip_cons, IH.
Qed.

Lemma code_points_app (s1 s2 : string) :
  code_points (s1 +:+ s2) = code_points s1 ++ code_points s2.
Proof.
  induction s1 as [|c s1 IH]; [done |].
  change (String c s1 +:+ s2) with (String c (s1 +:+ s2)).
  change (code_points (String c ?s)) with (code_point c :: code_points s).
  by rewrite IH.
Qed.

Lemma py_encode_nonempty (s : string) :
  s <> EmptyString -> exists b data, Py.encode s = b :: data.
Proof.
  destruct s as [|c s]; [done |]. intros _. cbn.
  destruct (code_point c <? 128); eauto.
Qed.

(** What the server makes of a stripped line of the client. *)
Lemma reply_to_stripped_line (text : string) :
  encode (theServer.reply_text (theServer.text_of (Py.encode (strip text))))
  = inr (Py.encode (Serving.reply_line (strip text))).
Proof.
  unfold theServer.text_of, theServer.reply_text, Serving.reply_line.
  rewrite decode_py_encode, rstrip_code_points.
  unfold strip at 1. rewrite py_rstrip_idempotent. fold (strip text).
  rewrite <- !code_points_app. apply encode_code_points.
Qed.

(** X22: client and server fit together: when the server receives in one
    chunk the message the client sends for a typed line, its reply is the
    UTF-8 encoding of [Server: received '<line>'] and a newline, where
    [<line>] is the typed line stripped of surrounding white space. *)
Theorem server_echoes_client_message
    (text : string) (x : theClient.exchange) (addr : theServer.address) :
  strip text <> EmptyString -> theClient.is_keyword (strip text) = false ->
  theServer.replies
    (theServer.handle_client
       (Serving.session (theClient.sends (theClient.turn (theClient.Line text) x).2))
       addr).2
  = [Py.encode (Serving.reply_line (strip text))].
Proof.
  intros Hs Hk. rewrite turn_message_sends by done.
  destruct (py_encode_nonempty _ Hs) as (b & data & Hb).
  rewrite handle_client_replies.
  cbn [Serving.session theServer.recvs fmap list_fmap].
  pose proof (reply_to_stripped_line text) as Hr. rewrite Hb in *.
  pose proof (handle_loop_data
                (Serving.session [b :: data]) addr b data [] 0 _ Hr) as Hd.
  unfold result in *. rewrite Hd. done.
Qed.

Lemma server_echoes_client_message_witness :
  theServer.replies
    (theServer.handle_client
       (Serving.session
          (theClient.sends
             (theClient.turn (theClient.Line "  ping ")
                {| theClient.sendall_raises := None;
                   theClient.recv_gives := inr [79; 75] |}).2))
       ("127.0.0.1", 50000)).2
  = [Py.encode (Serving.reply_line (strip "  ping "))].
Proof.
  refine (server_echoes_client_message "  ping " _ ("127.0.0.1", 50000) _ _).
  - vm_compute. intros H. discriminate H.
  - reflexivity.
Defined.

End Echo.

(** ** The listener: [serve] and its accept loop *)
Section Listener.
Import Py theServer Serving.

Lemma accepts_app (t1 t2 : list event) : accepts (t1 ++ t2) = (accepts t1 + accepts t2)%nat.
Proof. unfold accepts. by rewrite omap_app, length_app. Qed.

Lemma started_app (t1 t2 : list event) : started (t1 ++ t2) = started t1 ++ started t2.
Proof. apply omap_app. Qed.

Lemma handle_signals_run (sigs : list Z) (flag : bool) :
  handle_signals sigs flag =
    (inr (match sigs with [] => flag | _ => true end),
     (fun sig => Log (SignalReceived sig)) <$> sigs).
Proof.
  revert flag. induction sigs as [|sig sigs IH]; intros flag; [done |].
  cbn [handle_signals]. unfold _signal_handler. cbn. rewrite IH.
  by destruct sigs.
Qed.

(** One call of [accept] while the flag is down. *)
Lemma accept_loop_call (sigs : list Z) (o : accept_outcome) (rest : list step) :
  accept_loop (Accepts sigs o :: rest) false =
    let flag := match sigs with [] => false | _ => true end in
    let before := [SetTimeout 1; Accept]
                  ++ ((fun sig => Log (SignalReceived sig)) <$> sigs) in
    match attempt o with
    | (inr _, t) =>
        ((accept_loop rest flag).1, before ++ t ++ (accept_loop rest flag).2)
    | (inl e, t) =>
        if is_socket_timeout e
        then ((accept_loop rest flag).1, before ++ t ++ (accept_loop rest flag).2)
        else if is_KeyboardInterrupt e then (inr LoopLeft, before ++ t)
        else if is_Exception e
        then ((accept_loop rest flag).1,
              before ++ t ++ Log (ErrorAccepting e) :: (accept_loop rest flag).2)
        else (inl e, before ++ t)
    end.
Proof.
  cbn [accept_loop]. rewrite handle_signals_run. cbn zeta.
  set (flag := match sigs with [] => false | _ => true end).
  unfold io_bind, emit.
  destruct (attempt o) as [[e|[]] t].
  - destruct (is_socket_timeout e);
      [destruct (accept_loop rest flag); cbn; by rewrite <- ?app_assoc |].
    destruct (is_KeyboardInterrupt e); [cbn; by rewrite <- ?app_assoc |].
    destruct (is_Exception e);
      [destruct (accept_loop rest flag) |]; cbn; by rewrite <- ?app_assoc.
  - destruct (accept_loop rest flag); cbn; by rewrite <- ?app_assoc.
Qed.

Lemma attempt_events (o : accept_outcome) :
  Forall loop_event (attempt o).2
  /\ accepts (attempt o).2 = 0%nat.
Proof. destruct o as [c addr [e|]|e]; split; by repeat constructor. Qed.

Lemma signal_logs_events (sigs : list Z) :
  Forall loop_event ((fun sig => Log (SignalReceived sig)) <$> sigs)
  /\ accepts ((fun sig => Log (SignalReceived sig)) <$> sigs) = 0%nat
  /\ started ((fun sig => Log (SignalReceived sig)) <$> sigs) = [].
Proof.
  induction sigs as [|sig sigs (? & ? & ?)]; [by repeat split |].
  split; [by constructor | by split].
Qed.

(** Once [_shutdown] is set the loop is left without another [accept]. *)
Lemma accept_loop_stopped (ss : list step) :
  (accept_loop ss true).1 = inr LoopLeft
  /\ accepts (accept_loop ss true).2 = 0%nat
  /\ started (accept_loop ss true).2 = []
  /\ Forall loop_event (accept_loop ss true).2.
Proof.
  induction ss as [|[sig|sigs o] ss IH]; [done | | done].
  cbn [accept_loop]. unfold _signal_handler. cbn.
  destruct (accept_loop ss true) as [r t]. cbn in *.
  destruct IH as (-> & ? & ? & ?). repeat split; try done. by constructor.
Qed.

Lemma accept_loop_events (ss : list step) (flag : bool) :
  Forall loop_event (accept_loop ss flag).2.
Proof.
  revert flag. induction ss as [|[sig|sigs o] ss IH]; intros flag.
  - by destruct flag.
  - cbn [accept_loop]. unfold _signal_handler. cbn.
    specialize (IH true). destruct (accept_loop ss true) as [r t].
    by constructor.
  - destruct flag; [constructor |]. rewrite accept_loop_call. cbn zeta.
    pose proof (proj1 (attempt_events o)) as Ha.
    pose proof (proj1 (signal_logs_events sigs)) as Hs.
    set (flag := match sigs with [] => false | _ => true end).
    specialize (IH flag).
    destruct (attempt o) as [[e|[]] t]; cbn [snd] in *.
    + destruct (is_socket_timeout e); [| destruct (is_KeyboardInterrupt e);
        [| destruct (is_Exception e)]]; cbn [snd];
        repeat (apply Forall_app; split); try done;
        repeat (constructor; [done |]); try done.
    + cbn [snd]. repeat (apply Forall_app; split); try done.
      by repeat (constructor; [done |]).
Qed.

(** [serve] once bound and listening: the accept loop, then the cleanup
    unless the loop is still serving. *)
Lemma serve_listening (l : listener) (h : string) (port backlog : Z) :
  bind_raises l = None -> listen_raises l = None ->
  exists tail,
    (serve l h port backlog).2 =
      [SocketNew; SetReuseAddr; Bind h port; Listen backlog; Log (Listening h port)]
      ++ (accept_loop (steps l) false).2 ++ tail
    /\ accepts tail = 0%nat /\ started tail = []
    /\ ((accept_loop (steps l) false).1 = inr StillServing ->
        (serve l h port backlog).1 = inr StillServing /\ tail = [])
    /\ ((accept_loop (steps l) false).1 <> inr StillServing ->
        (serve l h port backlog).1 <> inr StillServing
        /\ exists tail', tail = tail' ++ [Log ShuttingDown; SocketClose]
                         /\ Forall loop_event tail').
Proof.
  intros Hb Hl. unfold serve. rewrite Hb, Hl.
  destruct (accept_loop (steps l) false) as [[e|[|]] t] eqn:Ha; cbn.
  - destruct (is_Exception e) eqn:He; cbn.
    + exists ([Log (ServerError e)] ++ [Log ShuttingDown; SocketClose]).
      split; [destruct (close_raises l) as [e'|]; [destruct (is_Exception e') |];
              cbn; by rewrite <- ?app_assoc |].
      repeat split; try done.
      * destruct (close_raises l) as [e'|]; [destruct (is_Exception e') |]; done.
      * eexists. split; [done |]. by repeat constructor.
    + exists [Log ShuttingDown; SocketClose].
      split; [destruct (close_raises l) as [e'|]; [destruct (is_Exception e') |];
              cbn; by rewrite <- ?app_assoc |].
      repeat split; try done.
      * destruct (close_raises l) as [e'|]; [destruct (is_Exception e') |]; done.
      * exists []. split; [done | constructor].
  - exists [Log ShuttingDown; SocketClose].
    split; [destruct (close_raises l) as [e'|]; [destruct (is_Exception e') |];
            cbn; by rewrite <- ?app_assoc |].
    repeat split; try done.
    + destruct (close_raises l) as [e'|]; [destruct (is_Exception e') |]; done.
    + exists []. split; [done | constructor].
  - exists []. rewrite !app_nil_r. repeat split; done.
Qed.

(** X23: when [bind] or [listen] fails with an [Exception], [serve] logs
    the server error, announces the shutdown and closes the socket, without
    ever calling [accept]. *)
Theorem serve_bind_failure (l : listener) (h : string) (port backlog : Z) (e : exn) :
  is_Exception e = true ->
  (bind_raises l = Some e ->
   (serve l h port backlog).2 =
     [SocketNew; SetReuseAddr; Bind h port; Log (ServerError e);
      Log ShuttingDown; SocketClose])
  /\ (bind_raises l = None -> listen_raises l = Some e ->
      (serve l h port backlog).2 =
        [SocketNew; SetReuseAddr; Bind h port; Listen backlog;
         Log (ServerError e); Log ShuttingDown; SocketClose]).
Proof.
  intros He. split.
  - intros Hb. unfold serve. rewrite Hb. cbn. rewrite He. cbn.
    destruct (close_raises l) as [e'|]; [destruct (is_Exception e') |]; done.
  - intros Hb Hl. unfold serve. rewrite Hb, Hl. cbn. rewrite He. cbn.
    destruct (close_raises l) as [e'|]; [destruct (is_Exception e') |]; done.
Qed.

Lemma serve_bind_failure_witness :
  (serve {| bind_raises := Some (OSError 98); listen_raises := None;
            close_raises := None;
            steps := [Accepts [] (AcceptRaises socket_timeout)] |}
     "127.0.0.1" 9000 5).2 =
    [SocketNew; SetReuseAddr; Bind "127.0.0.1" 9000; Log (ServerError (OSError 98));
     Log ShuttingDown; SocketClose].
Proof.
  refine (proj1 (serve_bind_failure _ "127.0.0.1" 9000 5 (OSError 98) _) _);
    reflexivity.
Defined.

(** X24: whenever [serve] ends, by a signal, an interrupt, a failure to
    bind or listen, or an exception that is not an [Exception], it has
    announced the shutdown and closed the listening socket last, and never
    before. *)
Theorem serve_closes_socket_last (l : listener) (h : string) (port backlog : Z) :
  (serve l h port backlog).1 <> inr StillServing ->
  exists t, (serve l h port backlog).2 = t ++ [Log ShuttingDown; SocketClose]
            /\ Forall loop_event t.
Proof.
  destruct (bind_raises l) as [e|] eqn:Hb.
  { intros _. unfold serve. rewrite Hb. cbn. destruct (is_Exception e); cbn.
    - exists [SocketNew; SetReuseAddr; Bind h port; Log (ServerError e)].
      split; [| by repeat constructor].
      destruct (close_raises l) as [e'|]; [destruct (is_Exception e') |]; done.
    - exists [SocketNew; SetReuseAddr; Bind h port].
      split; [| by repeat constructor].
      destruct (close_raises l) as [e'|]; [destruct (is_Exception e') |]; done. }
  destruct (listen_raises l) as [e|] eqn:Hl.
  { intros _. unfold serve. rewrite Hb, Hl. cbn. destruct (is_Exception e); cbn.
    - exists [SocketNew; SetReuseAddr; Bind h port; Listen backlog; Log (ServerError e)].
      split; [| by repeat constructor].
      destruct (close_raises l) as [e'|]; [destruct (is_Exception e') |]; done.
    - exists [SocketNew; SetReuseAddr; Bind h port; Listen backlog].
      split; [| by repeat constructor].
      destruct (close_raises l) as [e'|]; [destruct (is_Exception e') |]; done. }
  intros Hs.
  destruct (serve_listening l h port backlog Hb Hl)
    as (tail & Ht & _ & _ & Hstill & Hleft).
  assert (Ha : (accept_loop (steps l) false).1 <> inr StillServing).
  { intros Ha. by destruct (Hstill Ha). }
  destruct (Hleft Ha) as (_ & tail' & -> & Htail).
  eexists. rewrite Ht, !app_assoc. split; [reflexivity |].
  repeat (apply Forall_app; split); try done; [by repeat constructor |].
  apply accept_loop_events.
Qed.

Lemma serve_closes_socket_last_witness :
  exists t,
    (serve (listening [Accepts [] (AcceptRaises socket_timeout); Signal 2])
       "127.0.0.1" 9000 5).2 = t ++ [Log ShuttingDown; SocketClose]
    /\ Forall loop_event t.
Proof.
  refine (serve_closes_socket_last _ "127.0.0.1" 9000 5 _).
  vm_compute. discriminate.
Defined.

(** Calls of [accept] in a loop that meets a signal after the steps [pre]. *)
Lemma accept_loop_after_signal (pre rest : list step) (sig : Z) (flag : bool) :
  (accept_loop (pre ++ Signal sig :: rest) flag).1 <> inr StillServing
  /\ (accepts (accept_loop (pre ++ Signal sig :: rest) flag).2 <= length pre)%nat.
Proof.
  revert flag. induction pre as [|[s|sigs o] pre IH]; intros flag.
  - cbn [app accept_loop]. unfold _signal_handler. cbn.
    destruct (accept_loop_stopped rest) as (Hr & Ha & _).
    destruct (accept_loop rest true) as [r t]. cbn in *. subst r.
    split; [done |]. unfold accepts in *. cbn. lia.
  - cbn [app accept_loop]. unfold _signal_handler. cbn.
    destruct (accept_loop_stopped (pre ++ Signal sig :: rest)) as (Hr & Ha & _).
    destruct (accept_loop (pre ++ Signal sig :: rest) true) as [r t].
    cbn in *. subst r. split; [done |]. unfold accepts in *. cbn. lia.
  - destruct flag; [split; [done | cbn; lia] |].
    change ((Accepts sigs o :: pre) ++ Signal sig :: rest)
      with (Accepts sigs o :: (pre ++ Signal sig :: rest)).
    rewrite accept_loop_call. cbn zeta.
    set (flag := match sigs with [] => false | _ => true end).
    destruct (IH flag) as [Hr Ha].
    destruct (attempt_events o) as [_ Ht].
    destruct (signal_logs_events sigs) as (_ & Hs & _).
    destruct (attempt o) as [[e|[]] t]; cbn [snd fst] in *.
    + destruct (is_socket_timeout e); [| destruct (is_KeyboardInterrupt e);
        [| destruct (is_Exception e)]]; cbn [fst snd];
        (split; [done |]); rewrite ?accepts_app, ?Hs, ?Ht;
        change (accepts [SetTimeout 1; Accept]) with 1%nat;
        try change (accepts (Log ?m :: ?t')) with (accepts t'); cbn [length]; lia.
    + split; [done |]. rewrite !accepts_app, Hs, Ht.
      change (accepts [SetTimeout 1; Accept]) with 1%nat. cbn [length]. lia.
Qed.

(** Calls of [accept] in a loop where a signal arrives during the call after
    the steps [pre]. *)
Lemma accept_loop_signal_during
    (pre rest : list step) (sig : Z) (sigs : list Z) (o : accept_outcome) (flag : bool) :
  (accept_loop (pre ++ Accepts (sig :: sigs) o :: rest) flag).1 <> inr StillServing
  /\ (accepts (accept_loop (pre ++ Accepts (sig :: sigs) o :: rest) flag).2
      <= length pre + 1)%nat.
Proof.
  revert flag. induction pre as [|[s|sigs' o'] pre IH]; intros flag.
  - destruct flag; [split; [done | cbn; lia] |].
    cbn [app]. rewrite accept_loop_call. cbn zeta.
    destruct (accept_loop_stopped rest) as (Hr & Ha & _).
    destruct (attempt_events o) as [_ Ht].
    destruct (signal_logs_events (sig :: sigs)) as (_ & Hs & _).
    destruct (attempt o) as [[e|[]] t]; cbn [snd fst] in *.
    + destruct (is_socket_timeout e); [| destruct (is_KeyboardInterrupt e);
        [| destruct (is_Exception e)]]; cbn [fst snd];
        (split; [by rewrite ?Hr |]); rewrite ?accepts_app, ?Hs, ?Ht;
        change (accepts [SetTimeout 1; Accept]) with 1%nat;
        try change (accepts (Log ?m :: ?t')) with (accepts t');
        rewrite ?Ha; cbn [length]; lia.
    + split; [by rewrite Hr |]. rewrite !accepts_app, Hs, Ht, Ha.
      change (accepts [SetTimeout 1; Accept]) with 1%nat. cbn [length]. lia.
  - cbn [app accept_loop]. unfold _signal_handler. cbn.
    destruct (accept_loop_stopped (pre ++ Accepts (sig :: sigs) o :: rest))
      as (Hr & Ha & _).
    destruct (accept_loop (pre ++ Accepts (sig :: sigs) o :: rest) true) as [r t].
    cbn in *. subst r. split; [done |]. unfold accepts in *. cbn. lia.
  - destruct flag; [split; [done | cbn; lia] |].
    change ((Accepts sigs' o' :: pre) ++ Accepts (sig :: sigs) o :: rest)
      with (Accepts sigs' o' :: (pre ++ Accepts (sig :: sigs) o :: rest)).
    rewrite accept_loop_call. cbn zeta.
    set (flag := match sigs' with [] => false | _ => true end).
    destruct (IH flag) as [Hr Ha].
    destruct (attempt_events o') as [_ Ht].
    destruct (signal_logs_events sigs') as (_ & Hs & _).
    destruct (attempt o') as [[e|[]] t]; cbn [snd fst] in *.
    + destruct (is_socket_timeout e); [| destruct (is_KeyboardInterrupt e);
        [| destruct (is_Exception e)]]; cbn [fst snd];
        (split; [done |]); rewrite ?accepts_app, ?Hs, ?Ht;
        change (accepts [SetTimeout 1; Accept]) with 1%nat;
        try change (accepts (Log ?m :: ?t')) with (accepts t'); cbn [length]; lia.
    + split; [done |]. rewrite !accepts_app, Hs, Ht.
      change (accepts [SetTimeout 1; Accept]) with 1%nat. cbn [length]. lia.
Qed.

Lemma serve_accepts (l : listener) (h : string) (port backlog : Z) :
  bind_raises l = None -> listen_raises l = None ->
  accepts (serve l h port backlog).2 = accepts (accept_loop (steps l) false).2
  /\ started (serve l h port backlog).2 = started (accept_loop (steps l) false).2.
Proof.
  intros Hb Hl.
  destruct (serve_listening l h port backlog Hb Hl) as (tail & -> & Ha & Hs & _).
  rewrite !accepts_app, !started_app, Ha, Hs, app_nil_r.
  split; [| done]. change (accepts [_; _; _; _; _]) with 0%nat. lia.
Qed.

(** X25: a signal shuts the server down gracefully.  Handled between two
    turns of the loop, it lets no further [accept] be called; arriving while
    [accept] waits, it lets that call end (a client accepted by it still gets
    its thread) and no other be made.  In both cases [serve] leaves the loop
    rather than go on serving. *)
Theorem signal_stops_accepting
    (l : listener) (h : string) (port backlog : Z) (pre rest : list step) (sig : Z) :
  bind_raises l = None -> listen_raises l = None ->
  (steps l = pre ++ Signal sig :: rest ->
   (serve l h port backlog).1 <> inr StillServing
   /\ (accepts (serve l h port backlog).2 <= length pre)%nat)
  /\ (forall sigs o, steps l = pre ++ Accepts (sig :: sigs) o :: rest ->
      (serve l h port backlog).1 <> inr StillServing
      /\ (accepts (serve l h port backlog).2 <= length pre + 1)%nat).
Proof.
  intros Hb Hl.
  destruct (serve_accepts l h port backlog Hb Hl) as [Hacc _].
  destruct (serve_listening l h port backlog Hb Hl)
    as (tail & Ht & Hta & Hts & Hstill & Hleft).
  rewrite Hacc. split.
  - intros Hs. rewrite Hs in *.
    destruct (accept_loop_after_signal pre rest sig false) as [Hr Ha].
    split; [by apply Hleft | done].
  - intros sigs o Hs. rewrite Hs in *.
    destruct (accept_loop_signal_during pre rest sig sigs o false) as [Hr Ha].
    split; [by apply Hleft | done].
Qed.

Lemma signal_stops_accepting_witness :
  (serve (listening [Accepts [] (AcceptRaises socket_timeout); Signal 15;
                     Accepts [] (Accepted (session []) ("10.0.0.1", 4242) None)])
     "127.0.0.1" 9000 5).1 <> inr StillServing
  /\ le (accepts
           (serve (listening [Accepts [] (AcceptRaises socket_timeout); Signal 15;
                              Accepts [] (Accepted (session []) ("10.0.0.1", 4242) None)])
              "127.0.0.1" 9000 5).2)
        (length [Accepts [] (AcceptRaises socket_timeout)]).
Proof.
  refine (proj1 (signal_stops_accepting
                   (listening [Accepts [] (AcceptRaises socket_timeout); Signal 15;
                               Accepts [] (Accepted (session []) ("10.0.0.1", 4242) None)])
                   "127.0.0.1" 9000 5
                   [Accepts [] (AcceptRaises socket_timeout)]
                   [Accepts [] (Accepted (session []) ("10.0.0.1", 4242) None)]
                   15 _ _) _); reflexivity.
Defined.

Lemma accept_loop_undisturbed (ss : list step) :
  Forall undisturbed ss ->
  (accept_loop ss false).1 = inr StillServing
  /\ started (accept_loop ss false).2 = omap thread_of ss
  /\ accepts (accept_loop ss false).2 = length ss.
Proof.
  induction 1 as [|s ss Hs _ (IHr & IHs & IHa)]; [done |].
  destruct s as [sig|[|sig sigs] o]; try done.
  rewrite accept_loop_call. cbn zeta. cbn [fmap list_fmap app].
  destruct o as [c addr [e|]|e]; cbn [attempt raise emit thread_of undisturbed] in *.
  - destruct (is_socket_timeout e); [| destruct e; try done]; cbn [fst snd];
      rewrite ?accepts_app, ?started_app; cbn [omap list_omap thread_of];
      (split; [done |]); (split; [done |]);
      unfold accepts in *; cbn; lia.
  - cbn [fst snd]. split; [done |]. split.
    + cbn [omap list_omap thread_of]. rewrite <- IHs. done.
    + unfold accepts in *. cbn. lia.
  - destruct (is_socket_timeout e); [| destruct e; try done]; cbn [fst snd];
      rewrite ?accepts_app, ?started_app; cbn [omap list_omap thread_of];
      (split; [done |]); (split; [done |]);
      unfold accepts in *; cbn; lia.
Qed.

(** X26: errors do not stop the server.  As long as no signal arrives and
    [accept] and the start of a thread raise nothing but [Exception]s
    (timeouts included), [serve] keeps serving: it calls [accept] once per
    step and starts one handler thread for each connection accepted, in
    order. *)
Theorem serve_keeps_serving (l : listener) (h : string) (port backlog : Z) :
  bind_raises l = None -> listen_raises l = None ->
  Forall undisturbed (steps l) ->
  (serve l h port backlog).1 = inr StillServing
  /\ started (serve l h port backlog).2 = omap thread_of (steps l)
  /\ accepts (serve l h port backlog).2 = length (steps l).
Proof.
  intros Hb Hl Hu.
  destruct (accept_loop_undisturbed _ Hu) as (Hr & Hs & Ha).
  destruct (serve_accepts l h port backlog Hb Hl) as [Hacc Hst].
  destruct (serve_listening l h port backlog Hb Hl)
    as (tail & Ht & Hta & Hts & Hstill & Hleft).
  rewrite Hacc, Hst. split; [by apply Hstill | done].
Qed.

Lemma serve_keeps_serving_witness :
  started
    (serve (listening [Accepts [] (AcceptRaises (OSError 24));
                       Accepts [] (Accepted (session []) ("10.0.0.1", 4242) None);
                       Accepts [] (AcceptRaises socket_timeout)])
       "127.0.0.1" 9000 5).2
  = [("10.0.0.1", 4242)].
Proof.
  refine (proj1 (proj2 (serve_keeps_serving
            (listening [Accepts [] (AcceptRaises (OSError 24));
                        Accepts [] (Accepted (session []) ("10.0.0.1", 4242) None);
                        Accepts [] (AcceptRaises socket_timeout)])
            "127.0.0.1" 9000 5 _ _ _))); try reflexivity.
  repeat constructor.
Defined.

End Listener.
